(** * Morpho runtime: class linearization, random engine, parser precedence
      ladder and the discretization example object.

    A shallow embedding of
      - src/classes/clss.c            (class objects, C3 linearization),
      - src/support/random.c          (splitmix64, xoshiro256++, xoshiro256+),
      - src/support/parse.h           (the precedence enumeration),
      - morpho5/geometry/discretization.c (discretization objects, 1D
        Lagrange elements),
    followed by the properties of the specification that concern them. *)

From Stdlib Require Import ZArith List Lia Bool String Ascii QArith DecimalString.
From stdpp Require Import gmap.
Import ListNotations.

Open Scope Z_scope.

(* ===================================================================== *)
(** ** Runtime values                                                     *)
(* ===================================================================== *)

Module Value.

(** Heap objects are identified by their address. *)
Definition addr := positive.

(** The tagged runtime scalar.  value.h is not among the sources; the tags
    below are the ones the embedded functions build or inspect
    (MORPHO_NIL, MORPHO_INTEGER, MORPHO_OBJECT, and booleans). *)
Inductive value : Type :=
| MORPHO_NIL
| MORPHO_BOOL (b : bool)
| MORPHO_INTEGER (i : Z)
| MORPHO_OBJECT (p : addr).

(** MORPHO_ISEQUAL: same tag and same payload; object references compare
    by identity (class objects install no cmpfn). *)
Definition MORPHO_ISEQUAL (a b : value) : bool :=
  match a, b with
  | MORPHO_NIL, MORPHO_NIL => true
  | MORPHO_BOOL x, MORPHO_BOOL y => Bool.eqb x y
  | MORPHO_INTEGER x, MORPHO_INTEGER y => Z.eqb x y
  | MORPHO_OBJECT p, MORPHO_OBJECT q => Pos.eqb p q
  | _, _ => false
  end.

Definition MORPHO_ISOBJECT (v : value) : bool :=
  match v with MORPHO_OBJECT _ => true | _ => false end.

End Value.
Export Value.

(* ===================================================================== *)
(** ** clss.c                                                             *)
(* ===================================================================== *)

Module Clss.

(** Modelled from the spec: the objectclass structure (classes.h is not
    among the sources).  Section 3 lists name, methods, parents, children,
    superclass, linearization and uid; a varray_value is the list of its
    first [count] entries. *)
Record objectclass : Type := mkclass {
  name : string;
  methods : list (value * value);
  parents : list value;
  children : list value;
  superclass : option addr;
  linearization : list value;
  uid : Z
}.

Definition set_linearization (k : objectclass) (l : list value) : objectclass :=
  {| name := name k; methods := methods k; parents := parents k;
     children := children k; superclass := superclass k;
     linearization := l; uid := uid k |}.

(** object_newclass, on successful allocation.  The linearization varray is
    not initialised by the source; class_linearize resets its count before
    any read, and the model starts it empty. *)
Definition object_newclass (nm : string) : objectclass :=
  {| name := nm; methods := []; parents := []; children := [];
     superclass := None; linearization := []; uid := 0 |}.

(** _intail: the scan starts at index 1. *)
Definition _intail (lst : list value) (v : value) : bool :=
  existsb (fun x => MORPHO_ISEQUAL x v) (tl lst).

(** _remove: when the entry at index i equals v the memcpy moves
    sizeof(value)*count-i-1 bytes, which covers the count-i-1 entries that
    follow, down by one slot; the loop index still advances, so the entry
    that moved into slot i is not examined. *)
Fixpoint _remove (lst : list value) (v : value) : list value :=
  match lst with
  | [] => []
  | x :: rest =>
      if MORPHO_ISEQUAL x v then
        match rest with
        | [] => []
        | y :: rest' => y :: _remove rest' v
        end
      else x :: _remove rest v
  end.

(** _inanytail; the count n of the source is the length of [in_]. *)
Definition _inanytail (in_ : list (list value)) (v : value) : bool :=
  existsb (fun l => _intail l v) in_.

(** _done: every iteration of the loop tests [in->count], the count of the
    first list. *)
Definition _done (in_ : list (list value)) : bool :=
  forallb (fun _ : list value => negb (0 <? Z.of_nat (length (hd [] in_)))) in_.

(** _merge: the loop over i, here over the lists still to be tried. *)
Fixpoint _merge_from (todo in_ : list (list value)) (out : list value)
  : bool * list (list value) * list value :=
  match todo with
  | [] => (false, in_, out)
  | l :: todo' =>
      match l with
      | [] => _merge_from todo' in_ out
      | head :: _ =>
          if _inanytail in_ head then _merge_from todo' in_ out
          else (true, map (fun l' => _remove l' head) in_, out ++ [head])
      end
  end.

Definition _merge (in_ : list (list value)) (out : list value)
  : bool * list (list value) * list value :=
  _merge_from in_ in_ out.

(** The while loop of _linearize.  [None] only when the fuel runs out. *)
Fixpoint _linearize_loop (fuel : nat) (lin : list (list value)) (out : list value)
  : option (bool * list value) :=
  if _done lin then Some (true, out)
  else match fuel with
       | O => None
       | S fuel' =>
           match _merge lin out with
           | (true, lin', out') => _linearize_loop fuel' lin' out'
           | (false, _, out') => Some (false, out')
           end
       end.

Definition total_count (lin : list (list value)) : nat :=
  fold_right (fun l acc => (length l + acc)%nat) O lin.

(** MORPHO_GETCLASS followed by _init: the parent's linearization, read
    from the heap.  [None] when the value is not a class in the heap. *)
Definition _init (h : gmap addr objectclass) (parent : value) : option (list value) :=
  match parent with
  | MORPHO_OBJECT p => linearization <$> (h !! p)
  | _ => None
  end.

Fixpoint _init_all (h : gmap addr objectclass) (ps : list value)
  : option (list (list value)) :=
  match ps with
  | [] => Some []
  | p :: ps' =>
      match _init h p, _init_all h ps' with
      | Some l, Some ls => Some (l :: ls)
      | _, _ => None
      end
  end.

(** _linearize with [out] = &klass->linearization, as class_linearize calls
    it: the class is written to its own linearization before the parents'
    linearizations are read. *)
Definition _linearize (h : gmap addr objectclass) (klass : addr)
  : option (bool * gmap addr objectclass) :=
  match h !! klass with
  | None => None
  | Some k =>
      let out0 := linearization k ++ [MORPHO_OBJECT klass] in
      let h1 := <[klass := set_linearization k out0]> h in
      match parents k with
      | [] => Some (true, h1)
      | _ :: _ =>
          match _init_all h1 (parents k) with
          | None => None
          | Some lin =>
              match _linearize_loop (S (total_count lin)) lin out0 with
              | None => None
              | Some (success, out) =>
                  Some (success, <[klass := set_linearization k out]> h1)
              end
          end
      end
  end.

(** class_linearize *)
Definition class_linearize (h : gmap addr objectclass) (klass : addr)
  : option (bool * gmap addr objectclass) :=
  match h !! klass with
  | None => None
  | Some k => _linearize (<[klass := set_linearization k []]> h) klass
  end.

(** The linearization stored for a class, [] when there is no such class. *)
Definition linearization_of (h : gmap addr objectclass) (c : addr) : list value :=
  match h !! c with
  | Some k => linearization k
  | None => []
  end.

(** Linearize the classes of [order] one after the other; stops at the
    first failure. *)
Fixpoint linearize_all (h : gmap addr objectclass) (order : list addr)
  : option (bool * gmap addr objectclass) :=
  match order with
  | [] => Some (true, h)
  | c :: rest =>
      match class_linearize h c with
      | Some (true, h') => linearize_all h' rest
      | r => r
      end
  end.

(** A class with the given parents, as object_newclass followed by
    add-parent leaves it. *)
Definition class_with_parents (nm : string) (ps : list addr) : objectclass :=
  {| name := nm; methods := []; parents := map MORPHO_OBJECT ps; children := [];
     superclass := hd_error ps; linearization := []; uid := 0 |}.

(** Scenario 1: A; B inherits A; C inherits A; D inherits B, C. *)
Definition cA : addr := 1%positive.
Definition cB : addr := 2%positive.
Definition cC : addr := 3%positive.
Definition cD : addr := 4%positive.

Definition diamond : gmap addr objectclass :=
  <[cD := class_with_parents "D" [cB; cC]]>
  (<[cC := class_with_parents "C" [cA]]>
  (<[cB := class_with_parents "B" [cA]]>
  (<[cA := class_with_parents "A" []]> ∅))).

(** Scenario 2: X; Y inherits X; Z inherits X, Y. *)
Definition cX : addr := 1%positive.
Definition cY : addr := 2%positive.
Definition cZ : addr := 3%positive.

Definition xyz : gmap addr objectclass :=
  <[cZ := class_with_parents "Z" [cX; cY]]>
  (<[cY := class_with_parents "Y" [cX]]>
  (<[cX := class_with_parents "X" []]> ∅)).

(** The heaps of the two scenarios once the classes without Z (resp. D)
    have been linearized, parents first. *)
Definition linearized (nm : string) (ps : list addr) (lin : list addr) : objectclass :=
  set_linearization (class_with_parents nm ps) (map MORPHO_OBJECT lin).

Definition diamond_ready : gmap addr objectclass :=
  <[cC := linearized "C" [cA] [cC; cA]]>
  (<[cB := linearized "B" [cA] [cB; cA]]>
  (<[cA := linearized "A" [] [cA]]> diamond)).

Definition xyz_ready : gmap addr objectclass :=
  <[cY := linearized "Y" [cX] [cY; cX]]>
  (<[cX := linearized "X" [] [cX]]> xyz).

(** A heap in which the first parent's linearization is shorter than the
    second's: P; Q; R inherits Q; S inherits P, R. *)
Definition cP : addr := 1%positive.
Definition cQ : addr := 2%positive.
Definition cR : addr := 3%positive.
Definition cS : addr := 4%positive.

Definition pqrs_ready : gmap addr objectclass :=
  <[cS := class_with_parents "S" [cP; cR]]>
  (<[cR := linearized "R" [cQ] [cR; cQ]]>
  (<[cQ := linearized "Q" [] [cQ]]>
  (<[cP := linearized "P" [] [cP]]> ∅))).

(** A heap with inconsistent parents: G with L(G) = [G, H], H with
    L(H) = [H, G], and K inheriting G, H. *)
Definition ghk_ready : gmap addr objectclass :=
  <[cD := class_with_parents "K" [cB; cC]]>
  (<[cC := linearized "H" [] [cC; cB]]>
  (<[cB := linearized "G" [] [cB; cC]]> ∅)).

(** [a] occurs before [b] in [l]. *)
Definition before (a b : value) (l : list value) : Prop :=
  exists l1 l2 l3, l = l1 ++ a :: l2 ++ b :: l3.

(** A valid merge of the input lists, in the words of the specification:
    every element of every input list appears in the output, and the
    relative order of every input list is respected. *)
Definition valid_c3_merge (inputs : list (list value)) (out : list value) : Prop :=
  (forall l x, In l inputs -> In x l -> In x out) /\
  (forall l a b, In l inputs -> before a b l -> before a b out).

(** The linearizations stored for a list of parents. *)
Definition parent_linearizations (h : gmap addr objectclass) (ps : list value)
  : list (list value) :=
  map (fun p => match p with
                | MORPHO_OBJECT a => linearization_of h a
                | _ => []
                end) ps.

(** The invariant of the specification for one class: after a successful
    class_linearize the stored sequence starts with the class and, when
    there are parents, continues with a valid merge of the parents'
    linearizations and the parent-order list. *)
Definition spec_linearization (h : gmap addr objectclass) (klass : addr) : Prop :=
  forall k h',
    h !! klass = Some k ->
    class_linearize h klass = Some (true, h') ->
    exists rest,
      linearization_of h' klass = MORPHO_OBJECT klass :: rest /\
      (parents k <> [] ->
       valid_c3_merge (parent_linearizations h (parents k) ++ [parents k]) rest).

(** Scenario 2 as the specification states it. *)
Definition spec_xyz_fails : Prop :=
  exists h', class_linearize xyz_ready cZ = Some (false, h').

(** A good head, by the tests _merge makes: the first element of one of
    the lists that _inanytail does not find. *)
Definition good_head (lin : list (list value)) (v : value) : Prop :=
  exists l, In l lin /\ hd_error l = Some v /\ _inanytail lin v = false.

(** The states the while loop of _linearize runs through. *)
Inductive merge_run : list (list value) -> list value ->
                      list (list value) -> list value -> Prop :=
| run_here lin out : merge_run lin out lin out
| run_step lin out lin1 out1 lin2 out2 :
    _done lin = false ->
    _merge lin out = (true, lin1, out1) ->
    merge_run lin1 out1 lin2 out2 ->
    merge_run lin out lin2 out2.

(** Membership test used to describe what a run has already output. *)
Definition unpicked (picked : list value) (x : value) : bool :=
  negb (existsb (fun y => MORPHO_ISEQUAL x y) picked).

(** The invariant of a run started from the parents' linearizations
    [lins0] with [out0] already written: the lists are the originals
    without what has been output since. *)
Definition run_inv (lins0 : list (list value)) (out0 : list value)
  (lin : list (list value)) (out : list value) : Prop :=
  exists picked,
    out = out0 ++ picked /\
    List.NoDup picked /\
    lin = map (List.filter (unpicked picked)) lins0 /\
    (forall x, In x picked -> exists l, In l lins0 /\ In x l) /\
    (forall l a b, In l lins0 -> before a b l -> In b picked -> before a b picked).

End Clss.

(* ===================================================================== *)
(** ** random.c                                                           *)
(* ===================================================================== *)

Module Random.

(** uint64_t arithmetic: results are reduced modulo 2^64. *)
Definition u64 (z : Z) : Z := z mod 2 ^ 64.

(** uint64_t [4] *)
Record u64x4 : Type := mk4 { w0 : Z; w1 : Z; w2 : Z; w3 : Z }.

Definition zero4 : u64x4 := mk4 0 0 0 0.

Definition xor4 (a b : u64x4) : u64x4 :=
  mk4 (Z.lxor (w0 a) (w0 b)) (Z.lxor (w1 a) (w1 b))
      (Z.lxor (w2 a) (w2 b)) (Z.lxor (w3 a) (w3 b)).

(** The module-scope state: splitmix64_state, xoshiro256pp_state and
    xoshiro256p_state. *)
Record rng : Type := mkrng {
  splitmix64_state : Z;
  xoshiro256pp_state : u64x4;
  xoshiro256p_state : u64x4
}.

Definition set_pp (st : rng) (s : u64x4) : rng :=
  mkrng (splitmix64_state st) s (xoshiro256p_state st).

Definition set_p (st : rng) (s : u64x4) : rng :=
  mkrng (splitmix64_state st) (xoshiro256pp_state st) s.

(** splitmix64_next *)
Definition splitmix64_next (st : rng) : Z * rng :=
  let s := u64 (splitmix64_state st + 0x9E3779B97F4A7C15) in
  let z := s in
  let z := u64 (Z.lxor z (Z.shiftr z 30) * 0xBF58476D1CE4E5B9) in
  let z := u64 (Z.lxor z (Z.shiftr z 27) * 0x94D049BB133111EB) in
  (Z.lxor z (Z.shiftr z 31),
   mkrng s (xoshiro256pp_state st) (xoshiro256p_state st)).

(** splitmix64_seed *)
Definition splitmix64_seed (seed : Z) (st : rng) : rng :=
  mkrng seed (xoshiro256pp_state st) (xoshiro256p_state st).

(** xoshiro256pp_rotl and xoshiro256p_rotl (the same body) *)
Definition xoshiro256pp_rotl (x k : Z) : Z :=
  Z.lor (u64 (Z.shiftl x k)) (Z.shiftr x (64 - k)).

Definition xoshiro256p_rotl (x k : Z) : Z :=
  Z.lor (u64 (Z.shiftl x k)) (Z.shiftr x (64 - k)).

(** next: the xoshiro256++ draw; it reads and writes xoshiro256pp_state. *)
Definition next (st : rng) : Z * rng :=
  let s := xoshiro256pp_state st in
  let result := u64 (xoshiro256pp_rotl (u64 (w0 s + w3 s)) 23 + w0 s) in
  let t := u64 (Z.shiftl (w1 s) 17) in
  let s2 := Z.lxor (w2 s) (w0 s) in
  let s3 := Z.lxor (w3 s) (w1 s) in
  let s1 := Z.lxor (w1 s) s2 in
  let s0 := Z.lxor (w0 s) s3 in
  let s2 := Z.lxor s2 t in
  let s3 := xoshiro256pp_rotl s3 45 in
  (result, set_pp st (mk4 s0 s1 s2 s3)).

(** xoshiro256p_next: the xoshiro256+ draw, on xoshiro256p_state. *)
Definition xoshiro256p_next (st : rng) : Z * rng :=
  let s := xoshiro256p_state st in
  let result := u64 (w0 s + w3 s) in
  let t := u64 (Z.shiftl (w1 s) 17) in
  let s2 := Z.lxor (w2 s) (w0 s) in
  let s3 := Z.lxor (w3 s) (w1 s) in
  let s1 := Z.lxor (w1 s) s2 in
  let s0 := Z.lxor (w0 s) s3 in
  let s2 := Z.lxor s2 t in
  let s3 := xoshiro256p_rotl s3 45 in
  (result, set_p st (mk4 s0 s1 s2 s3)).

Definition JUMP : list Z :=
  [0x180ec6d33cfd0aba; 0xd5a61266f0c9392c; 0xa9582618e03fc9aa; 0x39abdc4529b1661c].

Definition LONG_JUMP : list Z :=
  [0x76e15d3efefdcbbf; 0xc5004e441c522fb3; 0x77710069854ee241; 0x39109bb02acbe635].

(** The test [JUMP[i] & UINT64_C(1) << b]. *)
Definition bit_set (w : Z) (b : nat) : bool :=
  negb (Z.land w (u64 (Z.shiftl 1 (Z.of_nat b))) =? 0).

(** Body of the inner loop of xoshiro256pp_jump and xoshiro256pp_longjump:
    accumulate xoshiro256pp_state, then call next(). *)
Definition pp_jump_body (w : Z) (a : u64x4 * rng) (b : nat) : u64x4 * rng :=
  let '(acc, st) := a in
  let acc := if bit_set w b then xor4 acc (xoshiro256pp_state st) else acc in
  (acc, snd (next st)).

(** Body of the inner loop of xoshiro256p_jump and xoshiro256p_longjump:
    accumulate xoshiro256p_state, then call next(). *)
Definition p_jump_body (w : Z) (a : u64x4 * rng) (b : nat) : u64x4 * rng :=
  let '(acc, st) := a in
  let acc := if bit_set w b then xor4 acc (xoshiro256p_state st) else acc in
  (acc, snd (next st)).

(** The two nested for loops, b = 0..63 inside i over the table. *)
Definition jump_loops (body : Z -> u64x4 * rng -> nat -> u64x4 * rng)
  (table : list Z) (st : rng) : u64x4 * rng :=
  fold_left (fun a w => fold_left (body w) (seq 0 64) a) table (zero4, st).

Definition xoshiro256pp_jump (st : rng) : rng :=
  let '(acc, st') := jump_loops pp_jump_body JUMP st in set_pp st' acc.

Definition xoshiro256pp_longjump (st : rng) : rng :=
  let '(acc, st') := jump_loops pp_jump_body LONG_JUMP st in set_pp st' acc.

Definition xoshiro256p_jump (st : rng) : rng :=
  let '(acc, st') := jump_loops p_jump_body JUMP st in set_p st' acc.

Definition xoshiro256p_longjump (st : rng) : rng :=
  let '(acc, st') := jump_loops p_jump_body LONG_JUMP st in set_p st' acc.

(** random_double.  The conversion of x >> 11 < 2^53 to double and the
    product with the power of two 0x1.0p-53 are both exact, so the double
    returned is the rational below. *)
Definition random_double (st : rng) : Q * rng :=
  let '(x, st') := xoshiro256p_next st in
  ((inject_Z (Z.shiftr x 11) * (1 # 2 ^ 53))%Q, st').

(** random_int; unsigned int has 32 bits. *)
Definition random_int (st : rng) : Z * rng :=
  let '(x, st') := xoshiro256p_next st in
  (Z.shiftr x 32 mod 2 ^ 32, st').

(** What random_initialize sees of the operating system: the bytes
    /dev/urandom delivers ([None] when fopen fails), the value of
    time(NULL), and the text written to stderr. *)
Record world : Type := mkworld {
  urandom : option (list Z);
  clock : Z;
  stderr : list string
}.

Definition EOF : Z := -1.

Definition fgetc (stream : list Z) : Z * list Z :=
  match stream with
  | [] => (EOF, [])
  | c :: rest => (c, rest)
  end.

(** sizeof(unsigned long) on an LP64 host. *)
Definition sizeof_unsigned_long : nat := 8.

(** for (i = 0; i < sizeof(unsigned long); i++) bytes[i] = (char) fgetc(urandom) *)
Fixpoint read_bytes (n : nat) (stream : list Z) : list Z * list Z :=
  match n with
  | O => ([], stream)
  | S n' =>
      let '(c, stream') := fgetc stream in
      let '(bytes, stream'') := read_bytes n' stream' in
      (c mod 256 :: bytes, stream'')
  end.

(** *((uint64_t * ) bytes) on a little-endian host. *)
Fixpoint le_word (bytes : list Z) : Z :=
  match bytes with
  | [] => 0
  | b :: rest => b + 256 * le_word rest
  end.

Definition urandom_warning : string :=
  "Warning: initializing random number generator using time-not recommended for production runs." ++ String (ascii_of_nat 10) "".

(** random_initialize *)
Definition random_initialize (env : world) (st : rng) : world * rng :=
  let seed := u64 (clock env) in
  let '(seed, env) :=
    match urandom env with
    | Some stream =>
        let '(bytes, stream') := read_bytes sizeof_unsigned_long stream in
        (le_word bytes, mkworld (Some stream') (clock env) (stderr env))
    | None =>
        (seed, mkworld None (clock env) (stderr env ++ [urandom_warning]))
    end in
  let st := splitmix64_seed seed st in
  let '(a0, st) := splitmix64_next st in
  let '(a1, st) := splitmix64_next st in
  let '(a2, st) := splitmix64_next st in
  let '(a3, st) := splitmix64_next st in
  let st := set_pp st (mk4 a0 a1 a2 a3) in
  let '(b0, st) := splitmix64_next st in
  let '(b1, st) := splitmix64_next st in
  let '(b2, st) := splitmix64_next st in
  let '(b3, st) := splitmix64_next st in
  let st := set_p st (mk4 b0 b1 b2 b3) in
  (env, st).

(** One draw, keeping the state only. *)
Definition pp_draw (st : rng) : rng := snd (next st).
Definition p_draw (st : rng) : rng := snd (xoshiro256p_next st).

(** The jump operations as the specification states them: the xoshiro256+
    state ends where 2^128 (2^192) draws would leave it, and the
    xoshiro256++ state is untouched. *)
Definition spec_jump (st : rng) : Prop :=
  xoshiro256p_state (xoshiro256p_jump st)
    = xoshiro256p_state (N.iter (2 ^ 128) p_draw st) /\
  xoshiro256pp_state (xoshiro256p_jump st) = xoshiro256pp_state st.

Definition spec_longjump (st : rng) : Prop :=
  xoshiro256p_state (xoshiro256p_longjump st)
    = xoshiro256p_state (N.iter (2 ^ 192) p_draw st) /\
  xoshiro256pp_state (xoshiro256p_longjump st) = xoshiro256pp_state st.

(** A state every word of which is a uint64_t. *)
Definition word (z : Z) : Prop := 0 <= z < 2 ^ 64.
Definition words (s : u64x4) : Prop :=
  word (w0 s) /\ word (w1 s) /\ word (w2 s) /\ word (w3 s).

(** Parity of the number of bits of [w] that the loop finds set. *)
Definition parity (w : Z) (bits : list nat) : bool :=
  fold_right (fun b p => xorb (bit_set w b) p) false bits.

Definition table_parity (bits : list nat) (table : list Z) : bool :=
  fold_right (fun w p => xorb (parity w bits) p) false table.

(** A seeded state on which the jumps are evaluated. *)
Definition st1234 : rng := mkrng 0 (mk4 1 2 3 4) (mk4 1 2 3 4).

(** The k-th output (k = 1, 2, ...) of splitmix64 after splitmix64_seed. *)
Definition splitmix64_output (seed : Z) (k : nat) : Z :=
  fst (splitmix64_next
         (Nat.iter (k - 1) (fun s => snd (splitmix64_next s))
                   (splitmix64_seed seed (mkrng 0 zero4 zero4)))).

(** The increment and the output function of splitmix64_next, named. *)
Definition GAMMA : Z := 0x9E3779B97F4A7C15.

Definition splitmix64_mix (s : Z) : Z :=
  let z := u64 (Z.lxor s (Z.shiftr s 30) * 0xBF58476D1CE4E5B9) in
  let z := u64 (Z.lxor z (Z.shiftr z 27) * 0x94D049BB133111EB) in
  Z.lxor z (Z.shiftr z 31).

(** The seed random_initialize hands to splitmix64_seed. *)
Definition seed_of (env : world) : Z :=
  match urandom env with
  | Some stream =>
      le_word (map (fun c => c mod 256)
                   (firstn sizeof_unsigned_long
                           (stream ++ repeat EOF sizeof_unsigned_long)))
  | None => u64 (clock env)
  end.

(** Seeding as the specification states it: 32 bytes are taken from
    /dev/urandom when it can be opened. *)
Definition spec_seed_bytes (env : world) (st : rng) : Prop :=
  forall stream,
    urandom env = Some stream -> (32 <= length stream)%nat ->
    urandom (fst (random_initialize env st)) = Some (skipn 32 stream).

(** /dev/urandom delivering the bytes 0, 1, ..., 39. *)
Definition world40 : world :=
  mkworld (Some (map Z.of_nat (seq 0 40))) 1700000000 [].

(** The state transition that next and xoshiro256p_next share, on the
    four words of either state. *)
Definition transition (s : u64x4) : u64x4 :=
  let t := u64 (Z.shiftl (w1 s) 17) in
  let s2 := Z.lxor (w2 s) (w0 s) in
  let s3 := Z.lxor (w3 s) (w1 s) in
  let s1 := Z.lxor (w1 s) s2 in
  let s0 := Z.lxor (w0 s) s3 in
  let s2 := Z.lxor s2 t in
  let s3 := xoshiro256pp_rotl s3 45 in
  mk4 s0 s1 s2 s3.

(** Polynomials over GF(2), lowest coefficient first. *)
Definition poly := list bool.

Fixpoint padd (a b : poly) : poly :=
  match a, b with
  | [], _ => b
  | _, [] => a
  | x :: a', y :: b' => xorb x y :: padd a' b'
  end.

Fixpoint pmul (a b : poly) : poly :=
  match a with
  | [] => []
  | x :: a' => padd (if x then b else []) (false :: pmul a' b)
  end.

Definition pzero (a : poly) : bool := forallb negb a.

(** The polynomial evaluated at the transition and applied to a state:
    the XOR of the states reached after i steps, over the i whose
    coefficient is set. *)
Fixpoint peval (a : poly) (s : u64x4) : u64x4 :=
  match a with
  | [] => zero4
  | x :: a' => xor4 (if x then s else zero4) (peval a' (transition s))
  end.

Definition poly_of (z : Z) (n : nat) : poly :=
  map (fun i => Z.testbit z (Z.of_nat i)) (seq 0 n).

(** The characteristic polynomial of the transition. *)
Definition CHARPOLY : poly :=
  poly_of 0x10003c03c3f3ecb1904b4edcf26259f850280002bcefd1a5e9d116f2bb0f0f001 257.

(** Long division, highest coefficient first. *)
Fixpoint xor_prefix (a p : list bool) : list bool :=
  match a, p with
  | x :: a', y :: p' => xorb x y :: xor_prefix a' p'
  | _, _ => a
  end.

Fixpoint divide (n : nat) (a p : list bool) : list bool * list bool :=
  match n with
  | O => ([], a)
  | S n' =>
      match a with
      | [] => ([], [])
      | x :: _ =>
          let a1 := if x then xor_prefix a p else a in
          let '(q, r) := divide n' (tl a1) p in
          (x :: q, r)
      end
  end.

Definition pdivmod (a p : poly) : poly * poly :=
  let '(q, r) := divide (length a + 1 - length p) (rev a) (rev p) in
  (rev q, rev r).

(** n squarings modulo CHARPOLY, each checked by multiplying back. *)
Fixpoint sq_chain (n : nat) (r : poly) : option poly :=
  match n with
  | O => Some r
  | S n' =>
      let a := pmul r r in
      let '(q, r1) := pdivmod a CHARPOLY in
      if pzero (padd a (padd (pmul q CHARPOLY) r1)) then sq_chain n' r1 else None
  end.

Definition is_zero4 (s : u64x4) : bool :=
  (w0 s =? 0) && (w1 s =? 0) && (w2 s =? 0) && (w3 s =? 0).

Definition unit_state (j : nat) (i : nat) : u64x4 :=
  let b := 2 ^ Z.of_nat i in
  match j with
  | O => mk4 b 0 0 0
  | S O => mk4 0 b 0 0
  | S (S O) => mk4 0 0 b 0
  | _ => mk4 0 0 0 b
  end.

(** The transition with the reductions modulo 2^64 written as masks, and
    the evaluation of a polynomial with it; both are equal to the ones
    above and are used where many states have to be computed. *)
Definition transition_fast (s : u64x4) : u64x4 :=
  let m := 0xFFFFFFFFFFFFFFFF in
  let t := Z.land (Z.shiftl (w1 s) 17) m in
  let s2 := Z.lxor (w2 s) (w0 s) in
  let s3 := Z.lxor (w3 s) (w1 s) in
  let s1 := Z.lxor (w1 s) s2 in
  let s0 := Z.lxor (w0 s) s3 in
  let s2 := Z.lxor s2 t in
  let s3 := Z.lor (Z.land (Z.shiftl s3 45) m) (Z.shiftr s3 19) in
  mk4 s0 s1 s2 s3.

Fixpoint peval_fast (a : poly) (s : u64x4) : u64x4 :=
  match a with
  | [] => zero4
  | x :: a' => xor4 (if x then s else zero4) (peval_fast a' (transition_fast s))
  end.

Definition vanishes_on_units (p : poly) : bool :=
  forallb (fun j => forallb (fun i => is_zero4 (peval_fast p (unit_state j i)))
                            (seq 0 64))
          (seq 0 4).

(** The coefficients the jump loops walk through: bit b of word i is the
    coefficient of degree 64 i + b. *)
Definition table_poly (table : list Z) : poly :=
  flat_map (fun w => map (bit_set w) (seq 0 64)) table.

Definition same_poly (a b : poly) : bool := pzero (padd a b).

End Random.

(* ===================================================================== *)
(** ** parse.h                                                            *)
(* ===================================================================== *)

Module Parse.

(** The anonymous enum: enumerators without initialisers count up from 0.
    [precedence] is int. *)
Definition precedence := Z.

Definition PREC_NONE : precedence := 0.
Definition PREC_LOWEST : precedence := PREC_NONE + 1.
Definition PREC_ASSIGN : precedence := PREC_LOWEST + 1.
Definition PREC_OR : precedence := PREC_ASSIGN + 1.
Definition PREC_AND : precedence := PREC_OR + 1.
Definition PREC_EQUALITY : precedence := PREC_AND + 1.
Definition PREC_COMPARISON : precedence := PREC_EQUALITY + 1.
Definition PREC_RANGE : precedence := PREC_COMPARISON + 1.
Definition PREC_TERM : precedence := PREC_RANGE + 1.
Definition PREC_FACTOR : precedence := PREC_TERM + 1.
Definition PREC_UNARY : precedence := PREC_FACTOR + 1.
Definition PREC_POW : precedence := PREC_UNARY + 1.
Definition PREC_CALL : precedence := PREC_POW + 1.
Definition PREC_HIGHEST : precedence := PREC_CALL + 1.

(** The names of the ladder. *)
Inductive level : Type :=
| NONE | LOWEST | ASSIGN | OR | AND | EQUALITY | COMPARISON | RANGE
| TERM | FACTOR | UNARY | POW | CALL | HIGHEST.

(** The enumerator each name stands for. *)
Definition prec_of (l : level) : precedence :=
  match l with
  | NONE => PREC_NONE | LOWEST => PREC_LOWEST | ASSIGN => PREC_ASSIGN
  | OR => PREC_OR | AND => PREC_AND | EQUALITY => PREC_EQUALITY
  | COMPARISON => PREC_COMPARISON | RANGE => PREC_RANGE | TERM => PREC_TERM
  | FACTOR => PREC_FACTOR | UNARY => PREC_UNARY | POW => PREC_POW
  | CALL => PREC_CALL | HIGHEST => PREC_HIGHEST
  end.

(** The ladder in the order the specification writes it,
    NONE < LOWEST < ... < HIGHEST. *)
Definition spec_ladder : list level :=
  [NONE; LOWEST; ASSIGN; OR; AND; EQUALITY; COMPARISON; RANGE;
   TERM; FACTOR; UNARY; POW; CALL; HIGHEST].

Definition level_eqb (a b : level) : bool :=
  match a, b with
  | NONE, NONE | LOWEST, LOWEST | ASSIGN, ASSIGN | OR, OR | AND, AND
  | EQUALITY, EQUALITY | COMPARISON, COMPARISON | RANGE, RANGE
  | TERM, TERM | FACTOR, FACTOR | UNARY, UNARY | POW, POW
  | CALL, CALL | HIGHEST, HIGHEST => true
  | _, _ => false
  end.

(** Position of a name on a ladder. *)
Fixpoint rung (l : level) (ladder : list level) : nat :=
  match ladder with
  | [] => O
  | x :: rest => if level_eqb x l then O else S (rung l rest)
  end.

(** [a] is written strictly before [b] on the specification's ladder. *)
Definition spec_below (a b : level) : Prop :=
  (rung a spec_ladder < rung b spec_ladder)%nat.

(** The error identifiers of the parser, each with its message, in the
    order of the header. *)
Definition parse_errors : list (string * string) :=
  [("IncExp"%string, "Incomplete expression."%string);
   ("MssngParen"%string, "Expect ')' after expression."%string);
   ("ExpExpr"%string, "Expected expression."%string);
   ("MssngSemiVal"%string, "Expect ; after value."%string);
   ("MssngExpTerm"%string, "Expect expression terminator (; or newline) after expression."%string);
   ("MssngSemiVar"%string, "Expect ; after variable declaration."%string);
   ("VarExpct"%string, "Variable name expected after var."%string);
   ("MssngBrc"%string, "Expected '}' to finish block."%string);
   ("IfMssngLftPrn"%string, "Expected '(' after if."%string);
   ("IfMssngRgtPrn"%string, "Expected ')' after condition."%string);
   ("WhlMssngLftPrn"%string, "Expected '(' after while."%string);
   ("ForMssngLftPrn"%string, "Expected '(' after for."%string);
   ("ForMssngSemi"%string, "Expected ';'."%string);
   ("ForMssngRgtPrn"%string, "Expected ')' after for clauses."%string);
   ("FnNoName"%string, "Expected function or method name."%string);
   ("FnMssngLftPrn"%string, "Expect '(' after name."%string);
   ("FnMssngRgtPrn"%string, "Expect ')' after parameters."%string);
   ("FnMssngLftBrc"%string, "Expect '{' before body."%string);
   ("CllMssngRgtPrn"%string, "Expect ')' after arguments."%string);
   ("ClsNmMssng"%string, "Expect class name."%string);
   ("ClsMssngLftBrc"%string, "Expect '{' before class body."%string);
   ("ClsMssngRgtBrc"%string, "Expect '}' after class body."%string);
   ("ExpctDtSpr"%string, "Expect '.' after 'super'"%string);
   ("IntrpIncmp"%string, "Incomplete string after interpolation."%string);
   ("EmptyIndx"%string, "Empty capacity in variable declaration."%string);
   ("ImprtMssngNm"%string, "Import expects a module or file name."%string);
   ("ImprtExpctFrAs"%string, "Import expects a module or file name followed by for or as."%string);
   ("ExpctSymblAftrAs"%string, "Expect symbol after as in import."%string);
   ("ExpctSymblAftrFr"%string, "Expect symbol(s) after for in import."%string);
   ("SprNmMssng"%string, "Expect superclass name."%string);
   ("UnrcgnzdTok"%string, "Encountered an unrecognized token."%string);
   ("DctSprtr"%string, "Expected a colon separating a key/value pair in dictionary."%string);
   ("SwtchSprtr"%string, "Expected a colon after label."%string);
   ("DctEntrySprtr"%string, "Expected a comma or '}'."%string);
   ("ExpctWhl"%string, "Expected while after loop body."%string);
   ("ExpctCtch"%string, "Expected catch after try statement."%string);
   ("ExpctHndlr"%string, "Expected block of error handlers after catch."%string);
   ("OneVarPr"%string, "Functions can have only one variadic parameter."%string)].

Fixpoint distinct (l : list string) : bool :=
  match l with
  | [] => true
  | x :: rest => negb (existsb (String.eqb x) rest) && distinct rest
  end.

(** The message defined for an identifier. *)
Fixpoint message_of (id : string) (table : list (string * string)) : option string :=
  match table with
  | [] => None
  | (i, m) :: rest => if String.eqb i id then Some m else message_of id rest
  end.

End Parse.

(* ===================================================================== *)
(** ** discretization.c                                                   *)
(* ===================================================================== *)

Module Discretization.

(** int arithmetic, reduced to 32 bits two's complement. *)
Definition int32 (z : Z) : Z := (z + 2 ^ 31) mod 2 ^ 32 - 2 ^ 31.

(** Modelled from the spec: the grade constants of mesh.h, which is not
    among the sources (glossary: 0 = vertex, 1 = line). *)
Definition MESH_GRADE_VERTEX : Z := 0.
Definition MESH_GRADE_LINE : Z := 1.

(** Modelled from the spec: LAGRANGE_CONSTRUCTORNAME of discretization.h,
    which is not among the sources; scenario 7 prints the label as
    [lagrange]. *)
Definition LAGRANGE_CONSTRUCTORNAME : string := "lagrange".

(** The discretization structure; [shape] is [None] for a NULL pointer. *)
Record discretization : Type := mkdisc {
  label : string;
  order : Z;
  g : Z;
  shape : option (list Z)
}.

(** objectdiscretization; the object header plays no part below. *)
Record objectdiscretization : Type := mkobj { d : discretization }.

(** The virtual machine as far as the constructor touches it: the heap of
    discretization objects, the objects bound to the vm, the error raised
    (if any), and the allocator. *)
Record vm : Type := mkvm {
  objects : gmap addr objectdiscretization;
  brk : addr;
  room : nat;
  bound : list value;
  err : option string
}.

(** Modelled from the spec: allocation (object.c and the allocator are not
    among the sources).  Section 7: allocation failure returns a null
    reference.  [room] counts the requests that can still be served;
    [brk] is the next unused address. *)
Definition allocate (v : vm) : option addr * vm :=
  match room v with
  | O => (None, v)
  | S r => (Some (brk v), mkvm (objects v) (Pos.succ (brk v)) r (bound v) (err v))
  end.

Definition store (v : vm) (p : addr) (o : objectdiscretization) : vm :=
  mkvm (<[p := o]> (objects v)) (brk v) (room v) (bound v) (err v).

(** Modelled from the spec: morpho_bindobjects records the objects with
    the vm that now owns them. *)
Definition morpho_bindobjects (v : vm) (objs : list value) : vm :=
  mkvm (objects v) (brk v) (room v) (bound v ++ objs) (err v).

(** discretization_init: fills the structure and allocates g+1 ints for
    the shape; the result tells whether the shape was allocated. *)
Definition discretization_init (v : vm) (lbl : string) (ord gr : Z)
  : bool * discretization * vm :=
  match allocate v with
  | (Some _, v') =>
      (true, mkdisc lbl ord gr (Some (repeat 0 (Z.to_nat (gr + 1)))), v')
  | (None, v') => (false, mkdisc lbl ord gr None, v')
  end.

(** for (int i=0; i<=grade; i++) new->d.shape[i]=shape[i];
    [None] when a read or a write falls outside its array (in particular
    when the destination is NULL). *)
Fixpoint copy_shape (idx : list nat) (src : list Z) (dst : option (list Z))
  : option (option (list Z)) :=
  match idx with
  | [] => Some dst
  | i :: idx' =>
      match dst, src !! i with
      | Some cells, Some x =>
          if (i <? length cells)%nat then copy_shape idx' src (Some (<[i := x]> cells))
          else None
      | _, _ => None
      end
  end.

(** object_newdiscretization.  The outer [None] is undefined behaviour
    (a write through a NULL shape); the inner option is the pointer
    returned, [None] for NULL. *)
Definition object_newdiscretization (v : vm) (lbl : string) (ord grade : Z)
  (shp : list Z) : option (option addr * vm) :=
  match allocate v with
  | (None, v') => Some (None, v')
  | (Some new, v') =>
      let '(_, dd, v'') := discretization_init v' lbl ord grade in
      match copy_shape (seq 0 (Z.to_nat (grade + 1))) shp (shape dd) with
      | None => None
      | Some cells =>
          Some (Some new, store v'' new (mkobj (mkdisc (label dd) (order dd) (g dd) cells)))
      end
  end.

(** objectdiscretization_printfn: printf("<%s %i>", label, order); the
    result is the text printed. *)
Definition objectdiscretization_printfn (o : objectdiscretization) : string :=
  ("<" ++ label (d o) ++ " " ++ NilZero.string_of_int (Z.to_int (order (d o))) ++ ">")%string.

(** The type entry, reduced to the callback that produces output. *)
Record objecttypedefn : Type := mkdefn {
  printfn : objectdiscretization -> string
}.

Definition objectdiscretizationdefn : objecttypedefn :=
  {| printfn := objectdiscretization_printfn |}.

(** Discretization_order *)
Definition Discretization_order (o : objectdiscretization) : value :=
  MORPHO_INTEGER (order (d o)).

(** cgn_nodecount *)
Definition cgn_nodecount (dd : discretization) : Z := int32 (order dd + 1).

(** The double computed by [((double) i)/(n-1)], kept as its two integer
    operands. *)
Record quotient : Type := Quot { num : Z; den : Z }.

(** cgn_nodepositions.  The matrix is represented by the calls
    matrix_setelement(out, row, col, x) made on it, in order. *)
Definition cgn_nodepositions (dd : discretization) (out : list (Z * Z * quotient))
  : bool * list (Z * Z * quotient) :=
  let n := cgn_nodecount dd in
  (true,
   fold_left (fun m i => m ++ [(0, Z.of_nat i, Quot (Z.of_nat i) (int32 (n - 1)))])
             (seq 0 (Z.to_nat n)) out).

Section Constructor.

(** morpho_valuetoint(v, &out) is defined outside the sources: given the
    value and the int currently stored at [out], it returns its boolean
    result and the int stored at [out] afterwards. *)
Variable morpho_valuetoint : value -> Z -> bool * Z.

(** MORPHO_GETARG *)
Definition MORPHO_GETARG (args : list value) (i : nat) : value :=
  nth i args MORPHO_NIL.

(** lagrange_constructor; nargs is the length of [args]. *)
Definition lagrange_constructor (v : vm) (args : list value) : option (value * vm) :=
  let out := MORPHO_NIL in
  let order := 1 in
  let order :=
    if (length args =? 1)%nat
    then snd (morpho_valuetoint (MORPHO_GETARG args 0) order)
    else order in
  let shp := [1; int32 (order - 1)] in
  match object_newdiscretization v LAGRANGE_CONSTRUCTORNAME order MESH_GRADE_LINE shp with
  | None => None
  | Some (new, v') =>
      let out := match new with Some p => MORPHO_OBJECT p | None => out end in
      let v' := if MORPHO_ISOBJECT out then morpho_bindobjects v' [out] else v' in
      Some (out, v')
  end.

End Constructor.

(** A conversion that accepts integers and rejects everything else without
    touching [out]. *)
Definition valuetoint_integers (v : value) (out : Z) : bool * Z :=
  match v with
  | MORPHO_INTEGER i => (true, i)
  | _ => (false, out)
  end.

Definition vm0 : vm := mkvm ∅ 1%positive 2 [] None.

(** A computation divides by zero when one of the quotients it stores has
    divisor 0. *)
Definition divides_by_zero (writes : list (Z * Z * quotient)) : Prop :=
  Exists (fun w => den (snd w) = 0) writes.

(** The safety property as stated: no division by zero exactly when the
    order is at least 1. *)
Definition spec_nodepositions (dd : discretization) : Prop :=
  ~ divides_by_zero (snd (cgn_nodepositions dd [])) <-> 1 <= order dd.

(** The discretization that the constructor builds for the argument -1. *)
Definition lagrange_minus_one : discretization :=
  mkdisc LAGRANGE_CONSTRUCTORNAME (-1) MESH_GRADE_LINE (Some [1; -2]).

(** The discretization that the constructor builds for the argument 3. *)
Definition lagrange_three : discretization :=
  mkdisc LAGRANGE_CONSTRUCTORNAME 3 MESH_GRADE_LINE (Some [1; 2]).

End Discretization.


(* ===================================================================== *)
(** * Properties                                                          *)
(* ===================================================================== *)

Module ClssFacts.
Import Clss.

Lemma MORPHO_ISEQUAL_eq (a b : value) : MORPHO_ISEQUAL a b = true <-> a = b.
Proof.
  destruct a, b; simpl; split; intro H;
    try discriminate; try reflexivity.
  - apply Bool.eqb_prop in H. congruence.
  - injection H as ->. apply Bool.eqb_reflx.
  - apply Z.eqb_eq in H. congruence.
  - injection H as ->. apply Z.eqb_refl.
  - apply Pos.eqb_eq in H. congruence.
  - injection H as ->. apply Pos.eqb_refl.
Qed.

Lemma MORPHO_ISEQUAL_refl (a : value) : MORPHO_ISEQUAL a a = true.
Proof. now apply MORPHO_ISEQUAL_eq. Qed.

(** *** _remove *)

Lemma remove_absent (l : list value) (v : value) : ~ In v l -> _remove l v = l.
Proof.
  induction l as [|x l IH]; simpl; intro H; [reflexivity|].
  destruct (MORPHO_ISEQUAL x v) eqn:E.
  - apply MORPHO_ISEQUAL_eq in E. subst x. exfalso. apply H. now left.
  - f_equal. apply IH. intro Hin. apply H. now right.
Qed.

Lemma remove_nodup (l : list value) (v : value) :
  List.NoDup l -> _remove l v = List.filter (fun x => negb (MORPHO_ISEQUAL x v)) l.
Proof.
  induction 1 as [|x l Hx Hnd IH]; simpl; [reflexivity|].
  destruct (MORPHO_ISEQUAL x v) eqn:E; simpl.
  - apply MORPHO_ISEQUAL_eq in E. subst x.
    rewrite <- IH, (remove_absent l v Hx).
    destruct l as [|y l']; [reflexivity|].
    f_equal. apply remove_absent. intro Hin. apply Hx. now right.
  - f_equal. exact IH.
Qed.

Lemma remove_length_le (v : value) :
  forall (n : nat) (l : list value),
    (length l <= n)%nat -> (length (_remove l v) <= length l)%nat.
Proof.
  induction n as [|n IH]; intros l H; destruct l as [|x l]; simpl in *; try lia.
  destruct (MORPHO_ISEQUAL x v).
  - destruct l as [|y l']; simpl in *; [lia|].
    specialize (IH l'). lia.
  - specialize (IH l). simpl. lia.
Qed.

Lemma remove_length (l : list value) (v : value) :
  (length (_remove l v) <= length l)%nat.
Proof. apply (remove_length_le v (length l)). lia. Qed.

Lemma remove_head_length (v : value) (t : list value) :
  (length (_remove (v :: t) v) < length (v :: t))%nat.
Proof.
  simpl. rewrite MORPHO_ISEQUAL_refl.
  destruct t as [|y t']; simpl; [lia|].
  pose proof (remove_length t' v). lia.
Qed.

(** *** _merge *)

Lemma merge_from_true (todo in_ : list (list value)) (out : list value) lin1 out1 :
  _merge_from todo in_ out = (true, lin1, out1) ->
  exists head t,
    In (head :: t) todo /\ _inanytail in_ head = false /\
    lin1 = map (fun l' => _remove l' head) in_ /\ out1 = out ++ [head].
Proof.
  induction todo as [|l todo IH]; simpl; intro H; [discriminate|].
  destruct l as [|head t].
  - destruct (IH H) as (hd' & t' & Hin & Hrest).
    exists hd', t'. split; [now right | exact Hrest].
  - destruct (_inanytail in_ head) eqn:E.
    + destruct (IH H) as (hd' & t' & Hin & Hrest).
      exists hd', t'. split; [now right | exact Hrest].
    + injection H as <- <-. exists head, t.
      split; [now left|]. repeat split; auto.
Qed.

Lemma merge_from_false (todo in_ : list (list value)) (out : list value) lin1 out1 :
  _merge_from todo in_ out = (false, lin1, out1) -> lin1 = in_ /\ out1 = out.
Proof.
  induction todo as [|l todo IH]; simpl; intro H.
  - injection H as <- <-. auto.
  - destruct l as [|head t]; [auto|].
    destruct (_inanytail in_ head); [auto | discriminate].
Qed.

Lemma total_count_map_le (f : list value -> list value) (lin : list (list value)) :
  (forall l, (length (f l) <= length l)%nat) ->
  (total_count (map f lin) <= total_count lin)%nat.
Proof.
  intro Hf. induction lin as [|l lin IH]; simpl; [lia|].
  specialize (Hf l). lia.
Qed.

Lemma total_count_map_lt (f : list value -> list value) (lin : list (list value))
  (l : list value) :
  (forall l', (length (f l') <= length l')%nat) ->
  In l lin -> (length (f l) < length l)%nat ->
  (total_count (map f lin) < total_count lin)%nat.
Proof.
  intros Hf Hin Hlt. induction lin as [|l' lin IH]; simpl; [destruct Hin|].
  destruct Hin as [-> | Hin].
  - pose proof (total_count_map_le f lin Hf). lia.
  - specialize (IH Hin). specialize (Hf l'). lia.
Qed.

Lemma merge_decreases (lin : list (list value)) (out : list value) lin1 out1 :
  _merge lin out = (true, lin1, out1) ->
  (total_count lin1 < total_count lin)%nat.
Proof.
  intro M. apply merge_from_true in M as (head & t & Hin & _ & -> & _).
  apply (total_count_map_lt _ lin (head :: t)).
  - intro l'. apply remove_length.
  - exact Hin.
  - apply remove_head_length.
Qed.

(** *** The loop *)

Lemma loop_follows_run lin out lin' out' :
  merge_run lin out lin' out' ->
  forall fuel, (total_count lin < fuel)%nat ->
  exists fuel', (total_count lin' < fuel')%nat /\
    _linearize_loop fuel lin out = _linearize_loop fuel' lin' out'.
Proof.
  induction 1 as [lin out | lin out lin1 out1 lin2 out2 Hd Hm Hrun IH];
    intros fuel Hf.
  - exists fuel. auto.
  - destruct fuel as [|fuel]; [lia|].
    pose proof (merge_decreases _ _ _ _ Hm) as Hdec.
    destruct (IH fuel) as (fuel' & Hf' & Heq); [lia|].
    exists fuel'. split; [exact Hf'|].
    simpl. rewrite Hd, Hm. exact Heq.
Qed.

Lemma loop_total :
  forall fuel lin out, (total_count lin < fuel)%nat ->
  exists b lin' out',
    _linearize_loop fuel lin out = Some (b, out') /\
    merge_run lin out lin' out' /\
    (b = true -> _done lin' = true).
Proof.
  induction fuel as [|fuel IH]; intros lin out Hf; [lia|].
  simpl. destruct (_done lin) eqn:D.
  - exists true, lin, out. repeat split; auto. constructor.
  - destruct (_merge lin out) as [[b lin1] out1] eqn:M. destruct b.
    + pose proof (merge_decreases _ _ _ _ M) as Hdec.
      destruct (IH lin1 out1) as (b & lin' & out' & Hl & Hrun & Hb); [lia|].
      exists b, lin', out'. repeat split; auto.
      eapply run_step; eauto.
    + apply merge_from_false in M as [-> ->].
      exists false, lin, out. repeat split.
      * constructor.
      * discriminate.
Qed.

(** *** What a run has output *)

Lemma unpicked_true (picked : list value) (x : value) :
  unpicked picked x = true -> ~ In x picked.
Proof.
  unfold unpicked. intros H Hin.
  apply negb_true_iff in H.
  assert (E : existsb (fun y => MORPHO_ISEQUAL x y) picked = true).
  { apply existsb_exists. exists x. split; [exact Hin | apply MORPHO_ISEQUAL_refl]. }
  congruence.
Qed.

Lemma unpicked_false (picked : list value) (x : value) :
  unpicked picked x = false -> In x picked.
Proof.
  unfold unpicked. intro H. apply negb_false_iff in H.
  apply existsb_exists in H as (y & Hin & E).
  apply MORPHO_ISEQUAL_eq in E. now subst.
Qed.

Lemma unpicked_snoc (picked : list value) (v x : value) :
  unpicked (picked ++ [v]) x = unpicked picked x && negb (MORPHO_ISEQUAL x v).
Proof.
  unfold unpicked. rewrite existsb_app. simpl.
  rewrite orb_false_r. apply negb_orb.
Qed.

Lemma filter_twice (f g : value -> bool) (l : list value) :
  List.filter f (List.filter g l) = List.filter (fun x => g x && f x) l.
Proof.
  induction l as [|x l IH]; simpl; [reflexivity|].
  destruct (g x); simpl; [destruct (f x)|]; rewrite IH; reflexivity.
Qed.

Lemma filter_all (l : list value) : List.filter (unpicked []) l = l.
Proof. induction l as [|x l IH]; simpl; [|rewrite IH]; reflexivity. Qed.

Lemma nodup_snoc (l : list value) (x : value) :
  List.NoDup l -> ~ In x l -> List.NoDup (l ++ [x]).
Proof.
  induction 1 as [|y l Hy Hnd IH]; simpl; intro Hx.
  - constructor; [intros [] | constructor].
  - constructor.
    + intro Hin. apply in_app_or in Hin as [Hin | [-> | []]]; [contradiction|].
      apply Hx. now left.
    + apply IH. intro Hin. apply Hx. now right.
Qed.

Lemma before_snoc (a b x : value) (l : list value) :
  before a b l -> before a b (l ++ [x]).
Proof.
  intros (l1 & l2 & l3 & ->). exists l1, l2, (l3 ++ [x]).
  rewrite <- app_assoc. simpl. rewrite <- app_assoc. reflexivity.
Qed.

Lemma before_last (a x : value) (l : list value) :
  In a l -> before a x (l ++ [x]).
Proof.
  intro Hin. apply in_split in Hin as (l1 & l2 & ->).
  exists l1, l2, []. rewrite <- app_assoc. reflexivity.
Qed.

Lemma inanytail_false (lin : list (list value)) (l : list value) (v : value) :
  _inanytail lin v = false -> In l lin -> _intail l v = false.
Proof.
  unfold _inanytail. intros H Hin.
  destruct (_intail l v) eqn:E; [|reflexivity].
  assert (existsb (fun l0 => _intail l0 v) lin = true).
  { apply existsb_exists. exists l. auto. }
  congruence.
Qed.

Lemma intail_later (X Y Z : list value) (a v : value) :
  _intail (X ++ a :: Y ++ v :: Z) v = true.
Proof.
  unfold _intail. apply existsb_exists. exists v.
  split; [|apply MORPHO_ISEQUAL_refl].
  destruct X as [|x X]; simpl.
  - apply in_elt.
  - apply in_or_app. right. right. apply in_elt.
Qed.

Lemma run_inv_start (lins0 : list (list value)) (out0 : list value) :
  run_inv lins0 out0 lins0 out0.
Proof.
  exists []. rewrite app_nil_r. repeat split.
  - constructor.
  - induction lins0 as [|l lins0 IH]; simpl; [reflexivity|].
    rewrite filter_all. f_equal. exact IH.
  - intros x [].
  - intros l a b _ _ [].
Qed.

Lemma run_inv_step (lins0 : list (list value)) (out0 : list value) lin out lin1 out1 :
  Forall (@List.NoDup value) lins0 ->
  run_inv lins0 out0 lin out ->
  _merge lin out = (true, lin1, out1) ->
  run_inv lins0 out0 lin1 out1.
Proof.
  intros Hnd (picked & -> & Hp & -> & Hsrc & Hord) M.
  apply merge_from_true in M as (head & t & Hin & Htail & -> & ->).
  apply in_map_iff in Hin as (l0 & Hl0 & Hin0).
  assert (Hh : In head (List.filter (unpicked picked) l0)).
  { rewrite Hl0. now left. }
  apply List.filter_In in Hh as [Hh0 Hhu].
  exists (picked ++ [head]). repeat split.
  - rewrite <- app_assoc. reflexivity.
  - apply nodup_snoc; [exact Hp | now apply unpicked_true].
  - rewrite map_map. apply map_ext_in. intros l Hl.
    rewrite List.Forall_forall in Hnd.
    rewrite remove_nodup by (apply List.NoDup_filter, Hnd, Hl).
    rewrite filter_twice. apply List.filter_ext. intro x.
    symmetry. apply unpicked_snoc.
  - intros x Hx. apply in_app_or in Hx as [Hx | [<- | []]].
    + now apply Hsrc.
    + exists l0. auto.
  - intros l a b Hl Hab Hb.
    apply in_app_or in Hb as [Hb | [<- | []]].
    + apply before_snoc. eapply Hord; eauto.
    + apply before_last.
      apply unpicked_false.
      destruct (unpicked picked a) eqn:Ea; [exfalso | reflexivity].
      destruct Hab as (l1 & l2 & l3 & ->).
      assert (Hl' : In (List.filter (unpicked picked) (l1 ++ a :: l2 ++ head :: l3))
                       (map (List.filter (unpicked picked)) lins0)).
      { now apply in_map. }
      pose proof (inanytail_false _ _ _ Htail Hl') as Hnot.
      rewrite List.filter_app in Hnot. simpl in Hnot. rewrite Ea in Hnot.
      rewrite List.filter_app in Hnot. simpl in Hnot. rewrite Hhu in Hnot.
      rewrite intail_later in Hnot. discriminate.
Qed.

Lemma run_inv_run (lins0 : list (list value)) (out0 : list value) lin out lin' out' :
  Forall (@List.NoDup value) lins0 ->
  merge_run lin out lin' out' ->
  run_inv lins0 out0 lin out ->
  run_inv lins0 out0 lin' out'.
Proof.
  intros Hnd Hrun. induction Hrun as [| lin out lin1 out1 lin2 out2 _ Hm _ IH];
    intro Hinv; [exact Hinv|].
  apply IH. eapply run_inv_step; eauto.
Qed.

(** A state without a good head makes _merge fail. *)
Lemma merge_stalls (lin : list (list value)) (out : list value) :
  (forall v, ~ good_head lin v) -> fst (fst (_merge lin out)) = false.
Proof.
  intro Hno. destruct (_merge lin out) as [[b lin1] out1] eqn:M.
  destruct b; [|reflexivity].
  apply merge_from_true in M as (head & t & Hin & Htail & _).
  exfalso. apply (Hno head). exists (head :: t). auto.
Qed.

(** Reading the parents does not see the class's own entry when the
    class is not among them. *)
Lemma init_all_frame (h : gmap addr objectclass) (klass : addr) (x : objectclass)
  (ps : list value) :
  ~ In (MORPHO_OBJECT klass) ps ->
  _init_all (<[klass := x]> h) ps = _init_all h ps.
Proof.
  induction ps as [|p ps IH]; simpl; intro H; [reflexivity|].
  rewrite IH by (intro Hin; apply H; now right).
  assert (E : _init (<[klass := x]> h) p = _init h p).
  { destruct p as [| | |q]; simpl; try reflexivity.
    rewrite lookup_insert_ne; [reflexivity|].
    intros ->. apply H. now left. }
  rewrite E. reflexivity.
Qed.

(** *** The scenarios, evaluated *)

Lemma xyz_ready_reached : linearize_all xyz [cX; cY] = Some (true, xyz_ready).
Proof. vm_compute. reflexivity. Qed.

Lemma diamond_ready_reached :
  linearize_all diamond [cA; cB; cC] = Some (true, diamond_ready) /\
  linearize_all diamond [cA; cC; cB] = Some (true, diamond_ready).
Proof. split; vm_compute; reflexivity. Qed.

Lemma xyz_run :
  exists h', class_linearize xyz_ready cZ = Some (true, h') /\
             linearization_of h' cZ = map MORPHO_OBJECT [cZ; cY; cX].
Proof. eexists. split; vm_compute; reflexivity. Qed.

Lemma not_before_swapped (a b : value) : a <> b -> ~ before a b [b; a].
Proof.
  intros Hne (l1 & l2 & l3 & E).
  destruct l1 as [|x [|y l1]]; simpl in E.
  - injection E; intros; congruence.
  - injection E; intros; destruct l2; discriminate.
  - injection E; intros; destruct l1; discriminate.
Qed.

(** The first list alone decides when the loop stops: with parents P and
    R, where L(P) = [P] and L(R) = [R, Q], the run ends after P. *)
Example done_tests_first_list :
  exists h', class_linearize pqrs_ready cS = Some (true, h') /\
             linearization_of h' cS = map MORPHO_OBJECT [cS; cP].
Proof. eexists. split; vm_compute; reflexivity. Qed.

(** ** Claims *)

(** C1 (as amended).  For a class [klass] whose parents are classes of the
    heap with duplicate-free linearizations [lins], class_linearize
    returns; the stored linearization begins with the class itself; the
    remainder is a merge of the parents' linearizations only (the
    parent-order list is not an input): each of its elements comes from
    some parent's linearization, it has no duplicates, and whenever [a]
    precedes [b] in a parent's linearization and [b] was output, [a] was
    output before [b].  Whenever the run reaches a merge step that finds
    no good head, class_linearize returns failure. *)
Theorem class_linearize_merges_parents
  (h : gmap addr objectclass) (klass : addr) (k : objectclass)
  (lins : list (list value)) :
  h !! klass = Some k ->
  ~ In (MORPHO_OBJECT klass) (parents k) ->
  _init_all h (parents k) = Some lins ->
  Forall (@List.NoDup value) lins ->
  exists success h' rest,
    class_linearize h klass = Some (success, h') /\
    linearization_of h' klass = MORPHO_OBJECT klass :: rest /\
    (forall x, In x rest -> exists l, In l lins /\ In x l) /\
    List.NoDup rest /\
    (forall l a b, In l lins -> before a b l -> In b rest -> before a b rest) /\
    (forall lin out,
        merge_run lins [MORPHO_OBJECT klass] lin out ->
        _done lin = false ->
        (forall v, ~ good_head lin v) ->
        success = false).
Proof.
  intros Hk Hself Hinit Hnd.
  unfold class_linearize. rewrite Hk.
  unfold _linearize. rewrite lookup_insert_eq.
  cbn [parents linearization set_linearization app].
  destruct (parents k) as [|p ps] eqn:Hp.
  - simpl in Hinit. injection Hinit as <-.
    eexists true, _, []. split; [reflexivity|].
    split; [unfold linearization_of; rewrite lookup_insert_eq; reflexivity|].
    repeat split.
    + intros x [].
    + constructor.
    + intros l a b [].
    + intros lin out Hrun Hd _.
      inversion Hrun; subst; simpl in *; discriminate.
  - rewrite !init_all_frame by exact Hself.
    rewrite Hinit.
    destruct (loop_total (S (total_count lins)) lins [MORPHO_OBJECT klass])
      as (b & lin' & out' & Hl & Hrun & Hb); [lia|].
    rewrite Hl.
    pose proof (run_inv_run lins [MORPHO_OBJECT klass] _ _ _ _ Hnd Hrun
                  (run_inv_start _ _)) as (picked & -> & Hpk & Hlin & Hsrc & Hord).
    exists b. eexists. exists picked. split; [reflexivity|].
    split; [unfold linearization_of; rewrite lookup_insert_eq; reflexivity|].
    repeat split; auto.
    intros lin out Hrun2 Hd Hno.
    destruct (loop_follows_run _ _ _ _ Hrun2 (S (total_count lins)))
      as (fuel' & Hf' & Heq); [lia|].
    rewrite Heq in Hl. destruct fuel' as [|fuel']; [lia|].
    simpl in Hl. rewrite Hd in Hl.
    pose proof (merge_stalls lin out Hno) as Hst.
    destruct (_merge lin out) as [[b' lin1] out1]. simpl in Hst. subst b'.
    injection Hl as <- _. reflexivity.
Qed.

Lemma class_linearize_merges_parents_witness :
  exists success h' rest,
    class_linearize diamond_ready cD = Some (success, h') /\
    linearization_of h' cD = MORPHO_OBJECT cD :: rest /\
    (forall x, In x rest ->
       exists l, In l [map MORPHO_OBJECT [cB; cA]; map MORPHO_OBJECT [cC; cA]] /\ In x l) /\
    List.NoDup rest /\
    (forall l a b,
        In l [map MORPHO_OBJECT [cB; cA]; map MORPHO_OBJECT [cC; cA]] ->
        before a b l -> In b rest -> before a b rest) /\
    (forall lin out,
        merge_run [map MORPHO_OBJECT [cB; cA]; map MORPHO_OBJECT [cC; cA]]
                  [MORPHO_OBJECT cD] lin out ->
        _done lin = false ->
        (forall v, ~ good_head lin v) ->
        success = false).
Proof.
  apply (class_linearize_merges_parents diamond_ready cD
           (class_with_parents "D" [cB; cC])).
  - vm_compute. reflexivity.
  - simpl. intros [H | [H | []]]; discriminate.
  - vm_compute. reflexivity.
  - repeat constructor; simpl; intuition discriminate.
Defined.

(** C1 (as stated) fails for Z with parents X, Y: the run succeeds with
    [Z, Y, X], which puts Y before X although the parent-order list
    [X, Y] asks for the opposite. *)
Lemma spec_linearization_counterexample : ~ spec_linearization xyz_ready cZ.
Proof.
  intro H.
  destruct xyz_run as (h' & E1 & E2).
  assert (Hk : xyz_ready !! cZ = Some (class_with_parents "Z" [cX; cY])).
  { vm_compute. reflexivity. }
  destruct (H _ _ Hk E1) as (rest & Hrest & Hvalid).
  rewrite E2 in Hrest. injection Hrest as <-.
  destruct Hvalid as [_ Hord]; [simpl; discriminate|].
  apply (not_before_swapped (MORPHO_OBJECT cX) (MORPHO_OBJECT cY)); [discriminate|].
  apply (Hord (map MORPHO_OBJECT [cX; cY])).
  - apply in_or_app. right. now left.
  - exists [], [], []. reflexivity.
Qed.

(** C2 (as amended).  With X and Y linearized first, class_linearize(Z)
    returns success and leaves Z.linearization = [Z, Y, X]: the merge
    inputs are [X] and [Y, X] only, and Y is a good head. *)
Theorem xyz_linearizes :
  linearize_all xyz [cX; cY] = Some (true, xyz_ready) /\
  exists h', class_linearize xyz_ready cZ = Some (true, h') /\
             linearization_of h' cZ = map MORPHO_OBJECT [cZ; cY; cX].
Proof. split; [exact xyz_ready_reached | exact xyz_run]. Qed.

(** C2 (as stated) fails: class_linearize(Z) does not return failure. *)
Lemma spec_xyz_fails_counterexample : ~ spec_xyz_fails.
Proof.
  intros (h' & H). destruct xyz_run as (h'' & E & _).
  rewrite E in H. discriminate.
Qed.

(** C4.  Diamond inheritance: with A, B, C linearized parents first (in
    either order of B and C), class_linearize(D) returns success and
    leaves D.linearization = [D, B, C, A]. *)
Theorem diamond_linearization :
  linearize_all diamond [cA; cB; cC] = Some (true, diamond_ready) /\
  linearize_all diamond [cA; cC; cB] = Some (true, diamond_ready) /\
  exists h', class_linearize diamond_ready cD = Some (true, h') /\
             linearization_of h' cD = map MORPHO_OBJECT [cD; cB; cC; cA].
Proof.
  destruct diamond_ready_reached as [H1 H2].
  split; [exact H1|]. split; [exact H2|].
  eexists. split; vm_compute; reflexivity.
Qed.

End ClssFacts.

Module RandomFacts.
Import Random.

(** *** Words *)

Lemma u64_word (z : Z) : word (u64 z).
Proof. unfold word, u64. apply Z.mod_pos_bound. reflexivity. Qed.

Lemma lxor_word (a b : Z) : word a -> word b -> word (Z.lxor a b).
Proof.
  unfold word. intros Ha Hb. split.
  - apply Z.lxor_nonneg. lia.
  - destruct (Z.eq_dec (Z.lxor a b) 0) as [E | E]; [rewrite E; reflexivity|].
    assert (0 < Z.lxor a b) by (assert (0 <= Z.lxor a b) by (apply Z.lxor_nonneg; lia); lia).
    apply Z.log2_lt_pow2; [assumption|].
    pose proof (Z.log2_lxor a b (proj1 Ha) (proj1 Hb)) as Hl.
    assert (Z.log2 a < 64).
    { destruct (Z.eq_dec a 0) as [-> | Hn]; [reflexivity|].
      apply Z.log2_lt_pow2; lia. }
    assert (Z.log2 b < 64).
    { destruct (Z.eq_dec b 0) as [-> | Hn]; [reflexivity|].
      apply Z.log2_lt_pow2; lia. }
    lia.
Qed.

Lemma rotl_word (x : Z) : word x -> word (xoshiro256p_rotl x 45).
Proof.
  intro Hx. unfold xoshiro256p_rotl, word.
  assert (Hs : 0 <= Z.shiftr x (64 - 45) < 2 ^ 64).
  { rewrite Z.shiftr_div_pow2 by lia. unfold word in Hx. split.
    - apply Z.div_pos; lia.
    - apply Z.div_lt_upper_bound; lia. }
  pose proof (u64_word (Z.shiftl x 45)) as Hu. unfold word in Hu.
  split.
  - apply Z.lor_nonneg. lia.
  - set (a := u64 (Z.shiftl x 45)) in *. set (b := Z.shiftr x (64 - 45)) in *.
    destruct (Z.eq_dec (Z.lor a b) 0) as [E | E]; [rewrite E; reflexivity|].
    assert (0 <= Z.lor a b) by (apply Z.lor_nonneg; lia).
    apply Z.log2_lt_pow2; [lia|].
    rewrite Z.log2_lor by lia.
    assert (Z.log2 a < 64).
    { destruct (Z.eq_dec a 0) as [-> | Hn]; [reflexivity|].
      apply Z.log2_lt_pow2; lia. }
    assert (Z.log2 b < 64).
    { destruct (Z.eq_dec b 0) as [-> | Hn]; [reflexivity|].
      apply Z.log2_lt_pow2; lia. }
    lia.
Qed.

Lemma rotl_zero (x : Z) : word x -> xoshiro256p_rotl x 45 = 0 -> x = 0.
Proof.
  unfold word, xoshiro256p_rotl, u64. intros Hx H.
  apply Z.lor_eq_0_iff in H as [H1 H2].
  rewrite Z.shiftr_div_pow2 in H2 by lia.
  rewrite Z.shiftl_mul_pow2 in H1 by lia.
  assert (x < 2 ^ (64 - 45)).
  { apply Z.div_small_iff in H2; lia. }
  rewrite Z.mod_small in H1; lia.
Qed.

Lemma shifted_fixpoint (x : Z) : word x -> x = u64 (Z.shiftl x 17) -> x = 0.
Proof.
  unfold word, u64. intros Hx H.
  rewrite Z.shiftl_mul_pow2 in H by lia.
  assert (Hd : (2 ^ 64 | (2 ^ 17 - 1) * x)).
  { exists (x * 2 ^ 17 / 2 ^ 64).
    pose proof (Z.div_mod (x * 2 ^ 17) (2 ^ 64)) as E.
    rewrite <- H in E. lia. }
  apply Z.gauss in Hd; [|reflexivity].
  destruct Hd as [q Hq]. lia.
Qed.

(** *** The xoshiro256+ state never becomes zero *)

Lemma p_draw_words (st : rng) :
  words (xoshiro256p_state st) -> words (xoshiro256p_state (p_draw st)).
Proof.
  unfold p_draw, xoshiro256p_next, words. simpl.
  intros (H0 & H1 & H2 & H3).
  repeat split; try apply lxor_word; try apply rotl_word;
    repeat apply lxor_word; auto using u64_word.
Qed.

Lemma p_draw_zero (st : rng) :
  words (xoshiro256p_state st) ->
  xoshiro256p_state (p_draw st) = zero4 ->
  xoshiro256p_state st = zero4.
Proof.
  unfold p_draw, xoshiro256p_next, words, zero4. simpl.
  destruct (xoshiro256p_state st) as [a b c e]. simpl.
  intros (Ha & Hb & Hc & He) H.
  injection H as E0 E1 E2 E3.
  apply rotl_zero in E3; [|now apply lxor_word].
  rewrite E3, Z.lxor_0_r in E0. subst a.
  rewrite Z.lxor_0_r in E1, E2.
  apply Z.lxor_eq in E1. subst c.
  apply Z.lxor_eq in E2.
  apply shifted_fixpoint in E2; [|assumption]. subst b.
  apply Z.lxor_eq in E3. subst e. reflexivity.
Qed.

Lemma p_draws_nonzero (n : N) (st : rng) :
  words (xoshiro256p_state st) ->
  xoshiro256p_state st <> zero4 ->
  xoshiro256p_state (N.iter n p_draw st) <> zero4.
Proof.
  intros Hw Hnz.
  apply (N.iter_invariant n _ p_draw
           (fun s => words (xoshiro256p_state s) /\ xoshiro256p_state s <> zero4)).
  - intros s [Hs Hn]. split; [now apply p_draw_words|].
    intro Hz. apply Hn. now apply p_draw_zero.
  - auto.
Qed.

(** *** The jump loops *)

Lemma xor4_twice (a s : u64x4) : xor4 (xor4 a s) s = a.
Proof.
  destruct a, s. unfold xor4. simpl.
  rewrite !Z.lxor_assoc, !Z.lxor_nilpotent, !Z.lxor_0_r. reflexivity.
Qed.

Lemma pp_draw_frame (st : rng) :
  xoshiro256p_state (pp_draw st) = xoshiro256p_state st /\
  splitmix64_state (pp_draw st) = splitmix64_state st.
Proof. split; reflexivity. Qed.

Lemma pp_draws_frame (n : nat) (st : rng) :
  xoshiro256p_state (Nat.iter n pp_draw st) = xoshiro256p_state st /\
  splitmix64_state (Nat.iter n pp_draw st) = splitmix64_state st.
Proof.
  induction n as [|n IH]; [auto|].
  rewrite Nat.iter_succ.
  destruct (pp_draw_frame (Nat.iter n pp_draw st)) as [E1 E2].
  rewrite E1, E2. exact IH.
Qed.

(** The inner loop: the accumulator is XORed with the same, unchanged
    xoshiro256+ state at every set bit, while next() advances the
    xoshiro256++ state. *)
Lemma p_inner_loop (w : Z) :
  forall (bits : list nat) (acc : u64x4) (st : rng),
    fold_left (p_jump_body w) bits (acc, st)
    = (if parity w bits then xor4 acc (xoshiro256p_state st) else acc,
       Nat.iter (length bits) pp_draw st).
Proof.
  induction bits as [|b bits IH]; intros acc st; [reflexivity|].
  cbn [fold_left p_jump_body parity fold_right length].
  fold (pp_draw st). fold (parity w bits).
  rewrite IH, Nat.iter_succ_r.
  destruct (pp_draw_frame st) as [-> _].
  destruct (bit_set w b), (parity w bits); simpl;
    rewrite ?xor4_twice; reflexivity.
Qed.

Lemma p_outer_loop (bits : list nat) :
  forall (table : list Z) (acc : u64x4) (st : rng),
    fold_left (fun a w => fold_left (p_jump_body w) bits a) table (acc, st)
    = (if table_parity bits table then xor4 acc (xoshiro256p_state st) else acc,
       Nat.iter (length bits * length table) pp_draw st).
Proof.
  induction table as [|w table IH]; intros acc st.
  - cbn [fold_left table_parity fold_right length].
    rewrite Nat.mul_0_r. reflexivity.
  - cbn [fold_left table_parity fold_right length].
    fold (table_parity bits table).
    rewrite p_inner_loop, IH.
    destruct (pp_draws_frame (length bits) st) as [-> _].
    f_equal.
    + destruct (parity w bits), (table_parity bits table); cbn [xorb];
        rewrite ?xor4_twice; reflexivity.
    + rewrite <- Nat.iter_add. f_equal. lia.
Qed.

Lemma xor4_zero (s : u64x4) : xor4 zero4 s = s.
Proof. destruct s. reflexivity. Qed.

Lemma p_jump_loops (table : list Z) (st : rng) :
  jump_loops p_jump_body table st
  = (if table_parity (seq 0 64) table then xoshiro256p_state st else zero4,
     Nat.iter (64 * length table) pp_draw st).
Proof.
  unfold jump_loops. rewrite p_outer_loop, length_seq.
  destruct (table_parity (seq 0 64) table); [rewrite xor4_zero|]; reflexivity.
Qed.

(** Both tables have an even number of set bits. *)
Lemma tables_even :
  table_parity (seq 0 64) JUMP = false /\
  table_parity (seq 0 64) LONG_JUMP = false.
Proof. split; vm_compute; reflexivity. Qed.

(** What xoshiro256p_jump and xoshiro256p_longjump do on every state:
    the xoshiro256+ state is cleared and the xoshiro256++ state is
    advanced by 256 draws. *)
Lemma p_jumps_evaluated (st : rng) :
  xoshiro256p_jump st
    = mkrng (splitmix64_state st)
            (xoshiro256pp_state (Nat.iter 256 pp_draw st)) zero4 /\
  xoshiro256p_longjump st
    = mkrng (splitmix64_state st)
            (xoshiro256pp_state (Nat.iter 256 pp_draw st)) zero4.
Proof.
  destruct tables_even as [EJ EL].
  unfold xoshiro256p_jump, xoshiro256p_longjump.
  rewrite !p_jump_loops, EJ, EL.
  change (64 * length JUMP)%nat with 256%nat.
  change (64 * length LONG_JUMP)%nat with 256%nat.
  unfold set_p.
  destruct (pp_draws_frame 256 st) as [_ ->]. auto.
Qed.

(** From a non-zero xoshiro256+ state the jumps end in a state that no
    number of draws reaches. *)
Lemma p_jumps_unreachable (st : rng) :
  words (xoshiro256p_state st) ->
  xoshiro256p_state st <> zero4 ->
  xoshiro256p_state (xoshiro256p_jump st) = zero4 /\
  xoshiro256p_state (xoshiro256p_longjump st) = zero4 /\
  (forall n : N, xoshiro256p_state (N.iter n p_draw st) <> zero4) /\
  ~ spec_jump st /\ ~ spec_longjump st.
Proof.
  intros Hw Hnz.
  destruct (p_jumps_evaluated st) as [EJ EL].
  assert (Hn : forall n : N, xoshiro256p_state (N.iter n p_draw st) <> zero4).
  { intro n. now apply p_draws_nonzero. }
  assert (ZJ : xoshiro256p_state (xoshiro256p_jump st) = zero4)
    by (rewrite EJ; reflexivity).
  assert (ZL : xoshiro256p_state (xoshiro256p_longjump st) = zero4)
    by (rewrite EL; reflexivity).
  repeat split; auto.
  - intros [H _]. rewrite ZJ in H. symmetry in H. exact (Hn _ H).
  - intros [H _]. rewrite ZL in H. symmetry in H. exact (Hn _ H).
Qed.

(** ** Claims *)

(** C3 (code evaluated at the failing input).  From the state
    [st1234], xoshiro256p_jump and xoshiro256p_longjump leave the
    xoshiro256+ state all zero, which no number of xoshiro256p_next draws
    reaches from there, and they change the xoshiro256++ state: neither
    half of the stated property holds. *)
Theorem xoshiro256p_jump_diverges :
  (xoshiro256p_state (xoshiro256p_jump st1234) = zero4 /\
   xoshiro256p_state (xoshiro256p_longjump st1234) = zero4 /\
   (forall n : N, xoshiro256p_state (N.iter n p_draw st1234) <> zero4) /\
   ~ spec_jump st1234 /\ ~ spec_longjump st1234) /\
  xoshiro256pp_state (xoshiro256p_jump st1234) <> xoshiro256pp_state st1234 /\
  xoshiro256pp_state (xoshiro256p_longjump st1234) <> xoshiro256pp_state st1234.
Proof.
  split; [|split].
  - apply p_jumps_unreachable.
    + unfold words, word. cbn. lia.
    + discriminate.
  - vm_compute. discriminate.
  - vm_compute. discriminate.
Qed.

(** *** Seeding *)

Lemma read_bytes_firstn (n : nat) :
  forall (m : nat) (stream : list Z), (n <= m)%nat ->
    read_bytes n stream
    = (map (fun c => c mod 256) (firstn n (stream ++ repeat EOF m)), skipn n stream).
Proof.
  induction n as [|n IH]; intros m stream Hm; [reflexivity|].
  destruct m as [|m]; [lia|].
  destruct stream as [|c rest]; cbn [read_bytes fgetc].
  - rewrite (IH m []) by lia. rewrite List.skipn_nil. reflexivity.
  - rewrite (IH (S m) rest) by lia. reflexivity.
Qed.

Lemma draw_word (st : rng) : word (fst (xoshiro256p_next st)).
Proof. apply u64_word. Qed.

Lemma splitmix64_next_eq (st : rng) :
  splitmix64_next st
  = (splitmix64_mix (u64 (splitmix64_state st + GAMMA)),
     mkrng (u64 (splitmix64_state st + GAMMA))
           (xoshiro256pp_state st) (xoshiro256p_state st)).
Proof. reflexivity. Qed.

Lemma splitmix64_states (n : nat) (st : rng) :
  splitmix64_state (Nat.iter n (fun s => snd (splitmix64_next s)) st)
  = Nat.iter n (fun s => u64 (s + GAMMA)) (splitmix64_state st).
Proof.
  induction n as [|n IH]; [reflexivity|].
  rewrite !Nat.iter_succ, splitmix64_next_eq. cbn [snd splitmix64_state].
  rewrite IH. reflexivity.
Qed.

Lemma splitmix64_output_eq (seed : Z) (k : nat) :
  splitmix64_output seed k
  = splitmix64_mix (Nat.iter (S (k - 1)) (fun s => u64 (s + GAMMA)) seed).
Proof.
  unfold splitmix64_output. rewrite splitmix64_next_eq. cbn [fst].
  rewrite splitmix64_states, Nat.iter_succ. reflexivity.
Qed.

(** Run the calls of splitmix64_next at the head of the goal, one by one. *)
Ltac run_splitmix64 :=
  repeat (rewrite splitmix64_next_eq;
          cbn [fst snd splitmix64_state splitmix64_seed set_pp set_p
               xoshiro256pp_state xoshiro256p_state]).

Lemma expand_seed (seed : Z) (st : rng) :
  let st := splitmix64_seed seed st in
  let '(a0, st) := splitmix64_next st in
  let '(a1, st) := splitmix64_next st in
  let '(a2, st) := splitmix64_next st in
  let '(a3, st) := splitmix64_next st in
  let st := set_pp st (mk4 a0 a1 a2 a3) in
  let '(b0, st) := splitmix64_next st in
  let '(b1, st) := splitmix64_next st in
  let '(b2, st) := splitmix64_next st in
  let '(b3, st) := splitmix64_next st in
  let st := set_p st (mk4 b0 b1 b2 b3) in
  xoshiro256pp_state st
    = mk4 (splitmix64_output seed 1) (splitmix64_output seed 2)
          (splitmix64_output seed 3) (splitmix64_output seed 4) /\
  xoshiro256p_state st
    = mk4 (splitmix64_output seed 5) (splitmix64_output seed 6)
          (splitmix64_output seed 7) (splitmix64_output seed 8).
Proof.
  cbv zeta.
  run_splitmix64.
  rewrite !splitmix64_output_eq.
  cbn [Nat.sub Nat.iter nat_rect].
  split; reflexivity.
Qed.

(** C6 (as amended).  random_initialize takes sizeof(unsigned long) = 8
    bytes from /dev/urandom when it can be opened and reads them as one
    64-bit word; otherwise the seed is time(NULL) and a warning goes to
    stderr.  In either case the seed is expanded through splitmix64:
    outputs 1 to 4 fill the xoshiro256++ state, outputs 5 to 8 the
    xoshiro256+ state. *)
Theorem random_initialize_seeds (env : world) (st : rng) :
  let env' := fst (random_initialize env st) in
  let st' := snd (random_initialize env st) in
  let seed := seed_of env in
  match urandom env with
  | Some stream =>
      urandom env' = Some (skipn 8 stream) /\ stderr env' = stderr env
  | None =>
      urandom env' = None /\ stderr env' = stderr env ++ [urandom_warning]
  end /\
  xoshiro256pp_state st'
    = mk4 (splitmix64_output seed 1) (splitmix64_output seed 2)
          (splitmix64_output seed 3) (splitmix64_output seed 4) /\
  xoshiro256p_state st'
    = mk4 (splitmix64_output seed 5) (splitmix64_output seed 6)
          (splitmix64_output seed 7) (splitmix64_output seed 8).
Proof.
  unfold random_initialize, seed_of.
  destruct (urandom env) as [stream|].
  - rewrite (read_bytes_firstn sizeof_unsigned_long sizeof_unsigned_long) by lia.
    generalize (le_word (map (fun c => c mod 256)
                  (firstn sizeof_unsigned_long
                     (stream ++ repeat EOF sizeof_unsigned_long)))).
    intro seed. pose proof (expand_seed seed st) as E. cbv zeta in *.
    revert E.
    run_splitmix64.
    intro E. split; [split; reflexivity | exact E].
  - generalize (u64 (clock env)). intro seed.
    pose proof (expand_seed seed st) as E. cbv zeta in *.
    revert E.
    run_splitmix64.
    intro E. split; [split; reflexivity | exact E].
Qed.

(** C6 (as stated) fails: of the 40 bytes /dev/urandom offers, 8 are
    taken, not 32. *)
Lemma spec_seed_bytes_counterexample : ~ spec_seed_bytes world40 st1234.
Proof.
  intro H.
  specialize (H (map Z.of_nat (seq 0 40)) eq_refl).
  assert (L : (32 <= length (map Z.of_nat (seq 0 40)))%nat)
    by (rewrite length_map, length_seq; lia).
  specialize (H L). vm_compute in H. discriminate.
Qed.

(** C7.  With x the value drawn by xoshiro256p_next, random_double
    returns (x >> 11) * 2^-53, a number of [0,1] built from the top 53
    bits of x, and random_int returns x >> 32, the upper 32 bits of x,
    which fits an unsigned 32-bit integer; both leave the state where the
    draw left it. *)
Theorem random_double_int_draws (st : rng) :
  let x := fst (xoshiro256p_next st) in
  let st' := snd (xoshiro256p_next st) in
  (fst (random_double st) == inject_Z (Z.shiftr x 11) / inject_Z (2 ^ 53))%Q /\
  (0 <= fst (random_double st) <= 1)%Q /\
  snd (random_double st) = st' /\
  (0 <= Z.shiftr x 11 < 2 ^ 53 /\
   forall i, 0 <= i -> Z.testbit (Z.shiftr x 11) i = Z.testbit x (i + 11)) /\
  random_int st = (Z.shiftr x 32, st') /\
  (0 <= Z.shiftr x 32 < 2 ^ 32 /\
   forall i, 0 <= i -> Z.testbit (Z.shiftr x 32) i = Z.testbit x (i + 32)).
Proof.
  intros x st'.
  pose proof (draw_word st) as Hx. fold x in Hx. unfold word in Hx.
  unfold random_double, random_int.
  destruct (xoshiro256p_next st) as [x0 st0] eqn:E.
  cbn [fst snd] in *. subst x st'.
  assert (H11 : 0 <= Z.shiftr x0 11 < 2 ^ 53).
  { rewrite Z.shiftr_div_pow2 by lia. split.
    - apply Z.div_pos; lia.
    - apply Z.div_lt_upper_bound; lia. }
  assert (H32 : 0 <= Z.shiftr x0 32 < 2 ^ 32).
  { rewrite Z.shiftr_div_pow2 by lia. split.
    - apply Z.div_pos; lia.
    - apply Z.div_lt_upper_bound; lia. }
  set (m := Z.shiftr x0 11) in *.
  assert (Q1 : (inject_Z m * (1 # 2 ^ 53) == inject_Z m / inject_Z (2 ^ 53))%Q).
  { unfold Qeq, Qdiv, Qmult, Qinv, inject_Z.
    change (2 ^ 53)%positive with 9007199254740992%positive.
    change (2 ^ 53) with 9007199254740992.
    cbn [Qnum Qden]. reflexivity. }
  assert (Q2 : (0 <= inject_Z m * (1 # 2 ^ 53))%Q).
  { unfold Qle, Qmult, inject_Z.
    change (2 ^ 53)%positive with 9007199254740992%positive.
    cbn [Qnum Qden]. lia. }
  assert (Q3 : (inject_Z m * (1 # 2 ^ 53) <= 1)%Q).
  { unfold Qle, Qmult, inject_Z.
    change (2 ^ 53)%positive with 9007199254740992%positive.
    cbn [Qnum Qden]. lia. }
  split; [exact Q1|]. split; [exact (conj Q2 Q3)|]. split; [reflexivity|].
  split.
  { split; [exact H11|]. intros i Hi. unfold m. apply Z.shiftr_spec. exact Hi. }
  split.
  { rewrite Z.mod_small by lia. reflexivity. }
  split; [exact H32|]. intros i Hi. apply Z.shiftr_spec. exact Hi.
Qed.

End RandomFacts.

Module ParseFacts.
Import Parse.

(** C8.  The enumerators increase strictly along the ladder
    NONE, LOWEST, ASSIGN, OR, AND, EQUALITY, COMPARISON, RANGE, TERM,
    FACTOR, UNARY, POW, CALL, HIGHEST, and comparing the precedences of
    two levels agrees with their order on the specification's ladder. *)
Theorem precedence_ladder :
  (PREC_NONE < PREC_LOWEST /\ PREC_LOWEST < PREC_ASSIGN /\
   PREC_ASSIGN < PREC_OR /\ PREC_OR < PREC_AND /\ PREC_AND < PREC_EQUALITY /\
   PREC_EQUALITY < PREC_COMPARISON /\ PREC_COMPARISON < PREC_RANGE /\
   PREC_RANGE < PREC_TERM /\ PREC_TERM < PREC_FACTOR /\
   PREC_FACTOR < PREC_UNARY /\ PREC_UNARY < PREC_POW /\
   PREC_POW < PREC_CALL /\ PREC_CALL < PREC_HIGHEST) /\
  (forall a b : level, prec_of a < prec_of b <-> spec_below a b) /\
  (forall a b : level, prec_of a = prec_of b <-> a = b).
Proof.
  split; [repeat split|split].
  - intros a b. unfold spec_below.
    destruct a, b; vm_compute; split; intro H;
      try reflexivity; try discriminate; lia.
  - intros a b. destruct a, b; split; intro H;
      try reflexivity; try discriminate.
Qed.

End ParseFacts.

Module DiscretizationFacts.
Import Discretization.

Lemma int32_small (z : Z) : - 2 ^ 31 <= z < 2 ^ 31 -> int32 z = z.
Proof. intro H. unfold int32. rewrite Z.mod_small; lia. Qed.

Lemma nodecount_divisor (o : Z) :
  - 2 ^ 31 <= o < 2 ^ 31 -> int32 (int32 (o + 1) - 1) = o.
Proof.
  intro H. destruct (Z.eq_dec o (2 ^ 31 - 1)) as [-> | Hne]; [reflexivity|].
  rewrite (int32_small (o + 1)) by lia.
  replace (o + 1 - 1) with o by lia. apply int32_small. lia.
Qed.

Lemma writes_appended {A B : Type} (f : A -> B) (l : list A) :
  forall out : list B,
    fold_left (fun m i => m ++ [f i]) l out = out ++ map f l.
Proof.
  induction l as [|x l IH]; intro out; simpl.
  - rewrite app_nil_r. reflexivity.
  - rewrite IH, <- app_assoc. reflexivity.
Qed.

Lemma constructor_keeps_err (cv : value -> Z -> bool * Z) (v : vm)
  (args : list value) (r : value) (v' : vm) :
  lagrange_constructor cv v args = Some (r, v') -> err v' = err v.
Proof.
  unfold lagrange_constructor, object_newdiscretization, discretization_init, allocate.
  destruct v as [objs b rm bd e]. cbn [room brk objects bound err].
  destruct rm as [|[|rm]]; cbn.
  - intro H. injection H as _ <-. reflexivity.
  - discriminate.
  - intro H. injection H as _ <-. reflexivity.
Qed.

(** What the constructor builds when the order it ends up with is [ord]:
    with room for the object and its shape, a fresh object of that order,
    line grade and shape [1, ord - 1], bound to the vm. *)
Lemma constructor_result (cv : value -> Z -> bool * Z) (v : vm)
  (args : list value) (ord : Z) :
  (2 <= room v)%nat ->
  (if (length args =? 1)%nat then snd (cv (MORPHO_GETARG args 0) 1) else 1) = ord ->
  exists v',
    lagrange_constructor cv v args = Some (MORPHO_OBJECT (brk v), v') /\
    objects v' !! brk v
      = Some (mkobj (mkdisc LAGRANGE_CONSTRUCTORNAME ord MESH_GRADE_LINE
                            (Some [1; int32 (ord - 1)]))) /\
    bound v' = bound v ++ [MORPHO_OBJECT (brk v)] /\
    err v' = err v.
Proof.
  intros Hroom Hord.
  unfold lagrange_constructor. rewrite Hord.
  unfold object_newdiscretization, discretization_init, allocate.
  destruct v as [objs b rm bd e]. cbn [room brk objects bound err] in *.
  destruct rm as [|[|rm]]; [lia | lia |].
  cbn. eexists. split; [reflexivity|].
  cbn. rewrite lookup_insert_eq. auto.
Qed.

(** ** Claims *)

(** C5.  With room for the object and its shape, and a conversion that
    turns the integer 3 into 3, the constructor called with the single
    argument 3 yields a discretization of order 3, line grade and shape
    [1, 2], which its type entry's printfn prints as <lagrange 3>; called
    without argument it yields order 1. *)
Theorem lagrange_constructor_builds (cv : value -> Z -> bool * Z) (v : vm) :
  (2 <= room v)%nat ->
  cv (MORPHO_INTEGER 3) 1 = (true, 3) ->
  (exists v' o,
      lagrange_constructor cv v [MORPHO_INTEGER 3] = Some (MORPHO_OBJECT (brk v), v') /\
      objects v' !! brk v = Some o /\
      order (d o) = 3 /\ g (d o) = MESH_GRADE_LINE /\ shape (d o) = Some [1; 2] /\
      printfn objectdiscretizationdefn o = "<lagrange 3>"%string) /\
  (exists v' o,
      lagrange_constructor cv v [] = Some (MORPHO_OBJECT (brk v), v') /\
      objects v' !! brk v = Some o /\ order (d o) = 1).
Proof.
  intros Hroom Hcv. split.
  - destruct (constructor_result cv v [MORPHO_INTEGER 3] 3 Hroom)
      as (v' & Hr & Ho & _).
    { cbn. rewrite Hcv. reflexivity. }
    exists v'. eexists. split; [exact Hr|]. split; [exact Ho|].
    repeat split.
  - destruct (constructor_result cv v [] 1 Hroom) as (v' & Hr & Ho & _);
      [reflexivity|].
    exists v'. eexists. split; [exact Hr|]. split; [exact Ho|]. reflexivity.
Qed.

Lemma lagrange_constructor_builds_witness :
  (exists v' o,
      lagrange_constructor valuetoint_integers vm0 [MORPHO_INTEGER 3]
        = Some (MORPHO_OBJECT (brk vm0), v') /\
      objects v' !! brk vm0 = Some o /\
      order (d o) = 3 /\ g (d o) = MESH_GRADE_LINE /\ shape (d o) = Some [1; 2] /\
      printfn objectdiscretizationdefn o = "<lagrange 3>"%string) /\
  (exists v' o,
      lagrange_constructor valuetoint_integers vm0 [] = Some (MORPHO_OBJECT (brk vm0), v') /\
      objects v' !! brk vm0 = Some o /\ order (d o) = 1).
Proof.
  apply (lagrange_constructor_builds valuetoint_integers vm0).
  - simpl. lia.
  - reflexivity.
Defined.

(** C10.  When the single argument cannot be converted (the conversion
    returns false and leaves the order where it was), the result of the
    conversion is not looked at: with room for the object and its shape
    the constructor still returns a discretization of order 1, and no
    call of the constructor, whatever its arguments, raises an error. *)
Theorem lagrange_constructor_ignores_failure
  (cv : value -> Z -> bool * Z) (v : vm) (a : value) :
  (2 <= room v)%nat ->
  fst (cv a 1) = false ->
  snd (cv a 1) = 1 ->
  (exists v' o,
      lagrange_constructor cv v [a] = Some (MORPHO_OBJECT (brk v), v') /\
      objects v' !! brk v = Some o /\ order (d o) = 1 /\
      err v' = err v) /\
  (forall args r v', lagrange_constructor cv v args = Some (r, v') -> err v' = err v).
Proof.
  intros Hroom _ Hout. split.
  - destruct (constructor_result cv v [a] 1 Hroom) as (v' & Hr & Ho & _ & He);
      [exact Hout|].
    exists v'. eexists. split; [exact Hr|]. split; [exact Ho|]. split; [reflexivity | exact He].
  - intros args r v'. apply constructor_keeps_err.
Qed.

Lemma lagrange_constructor_ignores_failure_witness :
  (exists v' o,
      lagrange_constructor valuetoint_integers vm0 [MORPHO_NIL]
        = Some (MORPHO_OBJECT (brk vm0), v') /\
      objects v' !! brk vm0 = Some o /\ order (d o) = 1 /\
      err v' = err vm0) /\
  (forall args r v',
      lagrange_constructor valuetoint_integers vm0 args = Some (r, v') ->
      err v' = err vm0).
Proof.
  apply (lagrange_constructor_ignores_failure valuetoint_integers vm0 MORPHO_NIL).
  - simpl. lia.
  - reflexivity.
  - reflexivity.
Defined.

(** C9 (as amended).  For an order that fits an int, cgn_nodepositions
    makes one write per i = 0 .. cgn_nodecount(d) - 1, storing i/(n-1) in
    column i, and the divisor n - 1 is d.order; the count is d.order + 1
    unless that overflows.  A division by zero happens exactly when
    d.order = 0, where the single node is 0/0; for negative orders nothing
    is written and nothing is divided. *)
Theorem cgn_nodepositions_writes (dd : discretization) :
  - 2 ^ 31 <= order dd < 2 ^ 31 ->
  let writes := snd (cgn_nodepositions dd []) in
  fst (cgn_nodepositions dd []) = true /\
  writes = map (fun i => (0, Z.of_nat i, Quot (Z.of_nat i) (order dd)))
               (seq 0 (Z.to_nat (cgn_nodecount dd))) /\
  (order dd < 2 ^ 31 - 1 -> cgn_nodecount dd = order dd + 1) /\
  (divides_by_zero writes <-> order dd = 0) /\
  (order dd = 0 -> writes = [(0, 0, Quot 0 0)]) /\
  (order dd < 0 -> writes = []).
Proof.
  intros Hr writes.
  assert (Hw : writes = map (fun i => (0, Z.of_nat i, Quot (Z.of_nat i) (order dd)))
                            (seq 0 (Z.to_nat (cgn_nodecount dd)))).
  { unfold writes, cgn_nodepositions. cbn [snd].
    rewrite writes_appended. cbn [app].
    unfold cgn_nodecount. rewrite nodecount_divisor by exact Hr. reflexivity. }
  assert (Hn : order dd < 2 ^ 31 - 1 -> cgn_nodecount dd = order dd + 1).
  { intro H. unfold cgn_nodecount. apply int32_small. lia. }
  split; [reflexivity|]. split; [exact Hw|]. split; [exact Hn|].
  split; [|split].
  - rewrite Hw. unfold divides_by_zero. rewrite List.Exists_exists. split.
    + intros (w & Hin & Hden). apply in_map_iff in Hin as (i & <- & _). exact Hden.
    + intro H0. exists (0, 0, Quot 0 (order dd)). split; [|exact H0].
      rewrite Hn by lia. rewrite H0. now left.
  - intro H0. rewrite Hw, Hn by lia. rewrite H0. reflexivity.
  - intro Hneg. rewrite Hw.
    assert (E : Z.to_nat (cgn_nodecount dd) = O).
    { rewrite Hn by lia. lia. }
    rewrite E. reflexivity.
Qed.

Lemma cgn_nodepositions_writes_witness :
  let writes := snd (cgn_nodepositions lagrange_three []) in
  fst (cgn_nodepositions lagrange_three []) = true /\
  writes = map (fun i => (0, Z.of_nat i, Quot (Z.of_nat i) (order lagrange_three)))
               (seq 0 (Z.to_nat (cgn_nodecount lagrange_three))) /\
  (order lagrange_three < 2 ^ 31 - 1 ->
   cgn_nodecount lagrange_three = order lagrange_three + 1) /\
  (divides_by_zero writes <-> order lagrange_three = 0) /\
  (order lagrange_three = 0 -> writes = [(0, 0, Quot 0 0)]) /\
  (order lagrange_three < 0 -> writes = []).
Proof.
  apply (cgn_nodepositions_writes lagrange_three).
  simpl. lia.
Defined.

(** C9 (as stated) fails at order -1: nothing is written, so nothing is
    divided by zero, although the order is below 1. *)
Lemma spec_nodepositions_counterexample : ~ spec_nodepositions lagrange_minus_one.
Proof.
  unfold spec_nodepositions. intros [H _].
  assert (Hfree : ~ divides_by_zero (snd (cgn_nodepositions lagrange_minus_one []))).
  { intro Hd. vm_compute in Hd. inversion Hd. }
  specialize (H Hfree). vm_compute in H. apply H. reflexivity.
Qed.

End DiscretizationFacts.

(* ===================================================================== *)
(** * Further properties of clss.c                                        *)
(* ===================================================================== *)

Module ClssMore.
Import Clss ClssFacts.

(** *** _remove on arbitrary lists *)


Lemma remove_in_or_eq (v : value) :
  forall (n : nat) (l : list value) (x : value), (length l <= n)%nat ->
    In x l -> In x (_remove l v) \/ x = v.
Proof.
  induction n as [|n IH]; intros l x Hl Hin; destruct l as [|y l];
    simpl in *; try contradiction; try lia.
  destruct (MORPHO_ISEQUAL y v) eqn:E.
  - apply MORPHO_ISEQUAL_eq in E. subst y.
    destruct Hin as [-> | Hin]; [now right|].
    destruct l as [|z l']; [destruct Hin|]. simpl in *.
    destruct Hin as [-> | Hin]; [left; now left|].
    destruct (IH l' x) as [H | H]; [lia | exact Hin | left; now right | now right].
  - destruct Hin as [-> | Hin]; [left; now left|].
    destruct (IH l x) as [H | H]; [lia | exact Hin | left; now right | now right].
Qed.



(** *** _merge *)

Lemma merge_from_first (todo in_ : list (list value)) (out : list value) lin1 out1 :
  _merge_from todo in_ out = (true, lin1, out1) ->
  exists pre head t post,
    todo = pre ++ (head :: t) :: post /\
    (forall l v, In l pre -> hd_error l = Some v -> _inanytail in_ v = true) /\
    _inanytail in_ head = false /\
    lin1 = map (fun l' => _remove l' head) in_ /\ out1 = out ++ [head].
Proof.
  induction todo as [|l todo IH]; simpl; intro H; [discriminate|].
  destruct l as [|head t].
  - destruct (IH H) as (pre & hd' & t' & post & -> & Hpre & Hrest).
    exists ([] :: pre), hd', t', post. split; [reflexivity|]. split; [|exact Hrest].
    intros l v [<- | Hin] Hv; [discriminate | eauto].
  - destruct (_inanytail in_ head) eqn:E.
    + destruct (IH H) as (pre & hd' & t' & post & -> & Hpre & Hrest).
      exists ((head :: t) :: pre), hd', t', post.
      split; [reflexivity|]. split; [|exact Hrest].
      intros l v [<- | Hin] Hv; [|eauto].
      simpl in Hv. injection Hv as <-. exact E.
    + injection H as <- <-. exists [], head, t, todo.
      split; [reflexivity|]. split; [intros l v []|]. auto.
Qed.

Lemma merge_from_none (todo in_ : list (list value)) (out : list value) :
  (forall l v, In l todo -> hd_error l = Some v -> _inanytail in_ v = true) ->
  _merge_from todo in_ out = (false, in_, out).
Proof.
  induction todo as [|l todo IH]; simpl; intro H; [reflexivity|].
  destruct l as [|head t].
  - apply IH. intros l v Hin. apply H. now right.
  - rewrite (H (head :: t) head) by (auto; now left).
    apply IH. intros l v Hin. apply H. now right.
Qed.

(** X (_merge).  _merge succeeds exactly when some list has a good head.
    It then takes the head of the first such list in the order of the
    lists, appends it to the output and runs _remove for it on every list;
    when it fails, the lists and the output are as before. *)
Theorem merge_takes_first_good_head (lin : list (list value)) (out : list value) :
  (fst (fst (_merge lin out)) = true <-> exists v, good_head lin v) /\
  (fst (fst (_merge lin out)) = false -> _merge lin out = (false, lin, out)) /\
  (forall lin1 out1,
      _merge lin out = (true, lin1, out1) ->
      exists pre head t post,
        lin = pre ++ (head :: t) :: post /\
        (forall l v, In l pre -> hd_error l = Some v -> ~ good_head lin v) /\
        good_head lin head /\
        lin1 = map (fun l' => _remove l' head) lin /\
        out1 = out ++ [head]).
Proof.
  split; [split|split].
  - intro H. destruct (_merge lin out) as [[b lin1] out1] eqn:M.
    simpl in H. subst b.
    apply merge_from_true in M as (head & t & Hin & Htail & _).
    exists head, (head :: t). auto.
  - intros (v & l & Hin & Hhd & Htail).
    destruct (_merge lin out) as [[b lin1] out1] eqn:M.
    destruct b; [reflexivity|]. exfalso.
    assert (Hm : fst (fst (_merge lin out)) = false) by (rewrite M; reflexivity).
    revert M. unfold _merge.
    destruct (_merge_from lin lin out) as [[b lin2] out2] eqn:M2.
    intro M. injection M as -> -> ->.
    assert (Hall : forall l v, In l lin -> hd_error l = Some v ->
                               _inanytail lin v = true).
    { intros l' v' Hin' Hhd'. destruct (_inanytail lin v') eqn:E; [reflexivity|].
      exfalso. clear Hm.
      assert (Hgen : forall todo, incl todo lin -> In l' todo ->
                fst (fst (_merge_from todo lin out)) = true).
      { induction todo as [|l0 todo IH]; intros Hinc Hl'; [destruct Hl'|].
        simpl. destruct l0 as [|h0 t0].
        - destruct Hl' as [<- | Hl']; [discriminate|].
          apply IH; [|exact Hl']. intros z Hz. apply Hinc. now right.
        - destruct (_inanytail lin h0) eqn:E0; [|reflexivity].
          destruct Hl' as [<- | Hl'].
          + simpl in Hhd'. injection Hhd' as <-. congruence.
          + apply IH; [|exact Hl']. intros z Hz. apply Hinc. now right. }
      specialize (Hgen lin (incl_refl lin) Hin'). rewrite M2 in Hgen. discriminate. }
    rewrite (Hall l v Hin Hhd) in Htail. discriminate.
  - intro H. destruct (_merge lin out) as [[b lin1] out1] eqn:M.
    simpl in H. subst b. apply merge_from_false in M as [-> ->]. reflexivity.
  - intros lin1 out1 M.
    apply merge_from_first in M as (pre & head & t & post & E & Hpre & Htail & -> & ->).
    exists pre, head, t, post. split; [exact E|]. split; [|split; [|auto]].
    + intros l v Hin Hhd (l' & _ & _ & Hno).
      rewrite (Hpre l v Hin Hhd) in Hno. discriminate.
    + exists (head :: t). split; [|auto].
      rewrite E. apply in_or_app. right. now left.
Qed.

(** *** class_linearize as a run of merge steps *)

Lemma run_appends lin out lin' out' :
  merge_run lin out lin' out' -> exists picked, out' = out ++ picked.
Proof.
  induction 1 as [lin out | lin out lin1 out1 lin2 out2 _ Hm _ IH].
  - exists []. now rewrite app_nil_r.
  - apply merge_from_true in Hm as (head & t & _ & _ & _ & ->).
    destruct IH as (picked & ->). exists (head :: picked).
    rewrite <- app_assoc. reflexivity.
Qed.

Lemma set_linearization_twice (k : objectclass) (l l' : list value) :
  set_linearization (set_linearization k l) l' = set_linearization k l'.
Proof. reflexivity. Qed.

(** class_linearize with its two heap writes to the class folded into
    one. *)
Lemma class_linearize_eq (h : gmap addr objectclass) (klass : addr) (k : objectclass) :
  h !! klass = Some k ->
  class_linearize h klass
  = match parents k with
    | [] => Some (true, <[klass := set_linearization k [MORPHO_OBJECT klass]]> h)
    | _ :: _ =>
        match _init_all (<[klass := set_linearization k [MORPHO_OBJECT klass]]> h)
                        (parents k) with
        | None => None
        | Some lin =>
            match _linearize_loop (S (total_count lin)) lin [MORPHO_OBJECT klass] with
            | None => None
            | Some (success, out) =>
                Some (success, <[klass := set_linearization k out]> h)
            end
        end
    end.
Proof.
  intro Hk. unfold class_linearize. rewrite Hk.
  unfold _linearize. rewrite lookup_insert_eq. cbv zeta.
  change (parents (set_linearization k [])) with (parents k).
  change (linearization (set_linearization k []) ++ [MORPHO_OBJECT klass])
    with [MORPHO_OBJECT klass].
  rewrite set_linearization_twice, insert_insert_eq.
  destruct (parents k) as [|p ps]; [reflexivity|].
  destruct (_init_all _ (p :: ps)) as [lin|]; [|reflexivity].
  destruct (_linearize_loop _ lin _) as [[success out]|]; [|reflexivity].
  rewrite set_linearization_twice, insert_insert_eq. reflexivity.
Qed.

Lemma class_linearize_steps (h : gmap addr objectclass) (klass : addr)
  (k : objectclass) (lins : list (list value)) :
  h !! klass = Some k ->
  parents k <> [] ->
  _init_all (<[klass := set_linearization k [MORPHO_OBJECT klass]]> h) (parents k)
    = Some lins ->
  exists b lin' picked,
    class_linearize h klass
      = Some (b, <[klass := set_linearization k (MORPHO_OBJECT klass :: picked)]> h) /\
    merge_run lins [MORPHO_OBJECT klass] lin' (MORPHO_OBJECT klass :: picked) /\
    (b = true -> _done lin' = true).
Proof.
  intros Hk Hp Hinit.
  rewrite (class_linearize_eq h klass k Hk), Hinit.
  destruct (parents k) as [|p ps] eqn:Ep; [contradiction|].
  destruct (loop_total (S (total_count lins)) lins [MORPHO_OBJECT klass])
    as (b & lin' & out' & Hl & Hrun & Hb); [lia|].
  rewrite Hl.
  destruct (run_appends _ _ _ _ Hrun) as (picked & ->).
  exists b, lin', picked. auto.
Qed.

(** A value that refers to a class of the heap. *)
Lemma init_all_defined (h : gmap addr objectclass) (ps : list value) :
  Forall (fun p => exists a, p = MORPHO_OBJECT a /\ is_Some (h !! a)) ps ->
  exists lins, _init_all h ps = Some lins.
Proof.
  induction 1 as [|p ps (a & -> & [ka Ha]) _ (lins & IH)]; simpl.
  - eauto.
  - rewrite Ha, IH. simpl. eauto.
Qed.

(** X (class_linearize returns).  Whenever the class and all its parents
    are classes of the heap, class_linearize returns: the while loop makes
    at most as many merge steps as the parents' linearizations have
    entries.  Whatever the result, the heap differs from the one before
    only in the linearization of that class, which begins with the class
    itself. *)
Theorem class_linearize_returns (h : gmap addr objectclass) (klass : addr)
  (k : objectclass) :
  h !! klass = Some k ->
  Forall (fun p => exists a, p = MORPHO_OBJECT a /\ is_Some (h !! a)) (parents k) ->
  exists success rest,
    class_linearize h klass
    = Some (success, <[klass := set_linearization k (MORPHO_OBJECT klass :: rest)]> h).
Proof.
  intros Hk Hps.
  destruct (parents k) as [|p ps] eqn:Ep.
  - exists true, []. rewrite (class_linearize_eq h klass k Hk), Ep. reflexivity.
  - destruct (init_all_defined
                (<[klass := set_linearization k [MORPHO_OBJECT klass]]> h) (parents k))
      as (lins & Hinit).
    { rewrite Ep. eapply List.Forall_impl; [|exact Hps].
      intros q (a & -> & Ha). exists a. split; [reflexivity|].
      destruct (decide (klass = a)) as [<- | Hne].
      - rewrite lookup_insert_eq. eauto.
      - rewrite lookup_insert_ne by exact Hne. exact Ha. }
    destruct (class_linearize_steps h klass k lins Hk) as (b & lin' & picked & E & _).
    + rewrite Ep. discriminate.
    + exact Hinit.
    + eauto.
Qed.

Lemma class_linearize_returns_witness :
  exists success rest,
    class_linearize pqrs_ready cS
    = Some (success,
            <[cS := set_linearization (class_with_parents "S" [cP; cR])
                      (MORPHO_OBJECT cS :: rest)]> pqrs_ready).
Proof.
  apply (class_linearize_returns pqrs_ready cS (class_with_parents "S" [cP; cR])).
  - vm_compute. reflexivity.
  - repeat constructor; eexists; (split; [reflexivity | vm_compute; eauto]).
Defined.

(** *** A single parent *)

Lemma loop_single (l : list value) :
  List.NoDup l ->
  forall (fuel : nat) (out : list value), (length l < fuel)%nat ->
    _linearize_loop fuel [l] out = Some (true, out ++ l).
Proof.
  induction 1 as [|x t Hx Hnd IH]; intros fuel out Hf.
  - destruct fuel; simpl; rewrite app_nil_r; reflexivity.
  - destruct fuel as [|fuel]; [simpl in Hf; lia|].
    assert (Ht : _intail (x :: t) x = false).
    { unfold _intail. simpl. destruct (existsb _ t) eqn:E; [|reflexivity].
      apply existsb_exists in E as (y & Hy & Ey).
      apply MORPHO_ISEQUAL_eq in Ey. subst y. contradiction. }
    cbn [_linearize_loop]. unfold _done, _merge. cbn [forallb hd length _merge_from].
    unfold _inanytail. cbn [existsb]. rewrite Ht. cbn [orb map].
    assert (Hr : _remove (x :: t) x = t).
    { simpl. rewrite MORPHO_ISEQUAL_refl.
      destruct t as [|y t']; [reflexivity|].
      f_equal. apply remove_absent. intro Hin. apply Hx. now right. }
    rewrite Hr. cbn. rewrite IH by (simpl in Hf; lia).
    rewrite <- app_assoc. reflexivity.
Qed.

(** X (single inheritance).  For a class with exactly one parent, another
    class whose stored linearization has no duplicates, class_linearize
    succeeds and stores the class followed by the parent's linearization. *)
Theorem single_parent_linearization (h : gmap addr objectclass) (klass p : addr)
  (k kp : objectclass) :
  h !! klass = Some k ->
  parents k = [MORPHO_OBJECT p] ->
  p <> klass ->
  h !! p = Some kp ->
  List.NoDup (linearization kp) ->
  class_linearize h klass
  = Some (true,
          <[klass := set_linearization k (MORPHO_OBJECT klass :: linearization kp)]> h).
Proof.
  intros Hk Hp Hne Hkp Hnd.
  rewrite (class_linearize_eq h klass k Hk), Hp.
  cbn [_init_all _init].
  rewrite lookup_insert_ne by congruence. rewrite Hkp.
  cbn [fmap option_fmap option_map].
  rewrite loop_single; [reflexivity | exact Hnd | simpl; lia].
Qed.

Lemma single_parent_linearization_witness :
  class_linearize pqrs_ready cR
  = Some (true,
          <[cR := set_linearization (linearized "R" [cQ] [cR; cQ])
                    (MORPHO_OBJECT cR :: linearization (linearized "Q" [] [cQ]))]>
            pqrs_ready).
Proof.
  apply (single_parent_linearization pqrs_ready cR cQ).
  - vm_compute. reflexivity.
  - reflexivity.
  - discriminate.
  - vm_compute. reflexivity.
  - repeat constructor; simpl; intuition discriminate.
Defined.

(** X (a class that is its own parent).  The class is written to its
    linearization before the parents are read, so a class whose only
    parent is itself merges its own fresh entry: class_linearize reports
    success and stores the class twice. *)
Theorem self_parent_linearization (h : gmap addr objectclass) (klass : addr)
  (k : objectclass) :
  h !! klass = Some k ->
  parents k = [MORPHO_OBJECT klass] ->
  class_linearize h klass
  = Some (true,
          <[klass := set_linearization k [MORPHO_OBJECT klass; MORPHO_OBJECT klass]]> h).
Proof.
  intros Hk Hp.
  rewrite (class_linearize_eq h klass k Hk), Hp.
  cbn [_init_all _init]. rewrite lookup_insert_eq.
  cbn [fmap option_fmap option_map].
  change (linearization (set_linearization k [MORPHO_OBJECT klass]))
    with [MORPHO_OBJECT klass].
  rewrite loop_single.
  - reflexivity.
  - repeat constructor. intros [].
  - simpl. lia.
Qed.

Lemma self_parent_linearization_witness :
  class_linearize (<[cA := class_with_parents "A" [cA]]> ∅) cA
  = Some (true,
          <[cA := set_linearization (class_with_parents "A" [cA])
                    [MORPHO_OBJECT cA; MORPHO_OBJECT cA]]>
            (<[cA := class_with_parents "A" [cA]]> ∅)).
Proof.
  apply self_parent_linearization.
  - apply lookup_insert_eq.
  - reflexivity.
Defined.

(** *** The first parent's list decides the end of the run *)

Lemma done_first_empty (lin : list (list value)) : _done lin = true -> hd [] lin = [].
Proof.
  destruct lin as [|l lin]; [reflexivity|].
  unfold _done. cbn [forallb hd]. intro H.
  apply andb_true_iff in H as [H _].
  destruct l; [reflexivity | discriminate].
Qed.

Lemma first_empty_done (lin : list (list value)) : hd [] lin = [] -> _done lin = true.
Proof.
  unfold _done. intros ->. induction lin as [|l lin IH]; [reflexivity|].
  cbn [forallb]. rewrite IH. reflexivity.
Qed.

Lemma run_first_list lin out lin' out' :
  merge_run lin out lin' out' ->
  forall x, In x (hd [] lin) \/ In x out -> In x (hd [] lin') \/ In x out'.
Proof.
  induction 1 as [lin out | lin out lin1 out1 lin2 out2 _ Hm _ IH];
    intros x Hx; [exact Hx|].
  apply IH.
  apply merge_from_true in Hm as (head & t & _ & _ & -> & ->).
  destruct Hx as [Hx | Hx].
  - destruct lin as [|l lin]; [destruct Hx|]. cbn [hd map] in *.
    destruct (remove_in_or_eq head (length l) l x) as [H | ->]; auto.
    right. apply in_or_app. right. now left.
  - right. apply in_or_app. now left.
Qed.

(** X (first parent complete).  The loop of _linearize stops as soon as
    the list of the first parent is empty, and a list only loses entries
    that were output: after a successful class_linearize every entry of
    the first parent's linearization is in the class's linearization. *)
Theorem first_parent_complete (h h' : gmap addr objectclass) (klass : addr)
  (k : objectclass) (lins : list (list value)) :
  h !! klass = Some k ->
  ~ In (MORPHO_OBJECT klass) (parents k) ->
  _init_all h (parents k) = Some lins ->
  class_linearize h klass = Some (true, h') ->
  forall x, In x (hd [] lins) -> In x (linearization_of h' klass).
Proof.
  intros Hk Hself Hinit Hrun x Hx.
  destruct (parents k) as [|p ps] eqn:Ep.
  { simpl in Hinit. injection Hinit as <-. destruct Hx. }
  destruct (class_linearize_steps h klass k lins Hk)
    as (b & lin' & picked & E & Hmr & Hb).
  - rewrite Ep. discriminate.
  - rewrite init_all_frame by (rewrite Ep; exact Hself). rewrite Ep. exact Hinit.
  - rewrite E in Hrun. injection Hrun as -> <-.
    unfold linearization_of. rewrite lookup_insert_eq.
    cbn [linearization set_linearization].
    destruct (run_first_list _ _ _ _ Hmr x (or_introl Hx)) as [H | H]; [|exact H].
    rewrite (done_first_empty lin' (Hb eq_refl)) in H. destruct H.
Qed.

Lemma first_parent_complete_witness :
  In (MORPHO_OBJECT cP)
     (linearization_of
        (<[cS := set_linearization (class_with_parents "S" [cP; cR])
                   (map MORPHO_OBJECT [cS; cP])]> pqrs_ready) cS).
Proof.
  apply (first_parent_complete pqrs_ready _ cS (class_with_parents "S" [cP; cR])
           [map MORPHO_OBJECT [cP]; map MORPHO_OBJECT [cR; cQ]]).
  - vm_compute. reflexivity.
  - simpl. intros [H | [H | []]]; discriminate.
  - vm_compute. reflexivity.
  - vm_compute. reflexivity.
  - now left.
Defined.

(** X (later parents cut off).  When the first parent's linearization is
    the single entry [p] and [p] is in no tail, the run ends after
    writing [p]: class_linearize reports success and stores [klass, p],
    whatever the other parents' linearizations still hold. *)
Theorem first_list_ends_run (h : gmap addr objectclass) (klass : addr)
  (k : objectclass) (p : value) (others : list (list value)) :
  h !! klass = Some k ->
  ~ In (MORPHO_OBJECT klass) (parents k) ->
  _init_all h (parents k) = Some ([p] :: others) ->
  _inanytail ([p] :: others) p = false ->
  class_linearize h klass
  = Some (true, <[klass := set_linearization k [MORPHO_OBJECT klass; p]]> h).
Proof.
  intros Hk Hself Hinit Htail.
  rewrite (class_linearize_eq h klass k Hk).
  destruct (parents k) as [|q qs] eqn:Ep; [discriminate|].
  rewrite init_all_frame by exact Hself. rewrite Hinit.
  cbn [_linearize_loop].
  assert (Hd : _done ([p] :: others) = false) by reflexivity.
  rewrite Hd. unfold _merge. cbn [_merge_from]. rewrite Htail.
  destruct (total_count ([p] :: others)) as [|n];
    cbn [_linearize_loop];
    rewrite first_empty_done by (cbn [map hd _remove];
                                 rewrite MORPHO_ISEQUAL_refl; reflexivity);
    reflexivity.
Qed.

Lemma first_list_ends_run_witness :
  class_linearize pqrs_ready cS
  = Some (true,
          <[cS := set_linearization (class_with_parents "S" [cP; cR])
                    [MORPHO_OBJECT cS; MORPHO_OBJECT cP]]> pqrs_ready).
Proof.
  apply (first_list_ends_run pqrs_ready cS (class_with_parents "S" [cP; cR])
           (MORPHO_OBJECT cP) [map MORPHO_OBJECT [cR; cQ]]).
  - vm_compute. reflexivity.
  - simpl. intros [H | [H | []]]; discriminate.
  - vm_compute. reflexivity.
  - reflexivity.
Defined.

(** X (duplicate-free linearizations are kept).  When the parents'
    linearizations have no duplicates and do not contain the class, the
    linearization that class_linearize stores has no duplicates either,
    whether it succeeds or fails: the condition carries from the parents
    to the class. *)
Theorem linearization_stays_duplicate_free (h : gmap addr objectclass)
  (klass : addr) (k : objectclass) (lins : list (list value)) :
  h !! klass = Some k ->
  ~ In (MORPHO_OBJECT klass) (parents k) ->
  _init_all h (parents k) = Some lins ->
  Forall (@List.NoDup value) lins ->
  Forall (fun l => ~ In (MORPHO_OBJECT klass) l) lins ->
  exists success h',
    class_linearize h klass = Some (success, h') /\
    List.NoDup (linearization_of h' klass).
Proof.
  intros Hk Hself Hinit Hnd Hnot.
  destruct (parents k) as [|p ps] eqn:Ep.
  { exists true. eexists. rewrite (class_linearize_eq h klass k Hk), Ep.
    split; [reflexivity|].
    unfold linearization_of. rewrite lookup_insert_eq.
    repeat constructor. intros []. }
  destruct (class_linearize_steps h klass k lins Hk)
    as (b & lin' & picked & E & Hmr & _).
  - rewrite Ep. discriminate.
  - rewrite init_all_frame by (rewrite Ep; exact Hself). rewrite Ep. exact Hinit.
  - exists b. eexists. split; [exact E|].
    unfold linearization_of. rewrite lookup_insert_eq.
    cbn [linearization set_linearization].
    pose proof (run_inv_run lins [MORPHO_OBJECT klass] _ _ _ _ Hnd Hmr
                  (run_inv_start _ _)) as (picked' & Eo & Hpk & _ & Hsrc & _).
    injection Eo as <-.
    constructor; [|exact Hpk].
    intro Hin. destruct (Hsrc _ Hin) as (l & Hl & Hkl).
    rewrite List.Forall_forall in Hnot. exact (Hnot l Hl Hkl).
Qed.

Lemma linearization_stays_duplicate_free_witness :
  exists success h',
    class_linearize diamond_ready cD = Some (success, h') /\
    List.NoDup (linearization_of h' cD).
Proof.
  apply (linearization_stays_duplicate_free diamond_ready cD
           (class_with_parents "D" [cB; cC])
           [map MORPHO_OBJECT [cB; cA]; map MORPHO_OBJECT [cC; cA]]).
  - vm_compute. reflexivity.
  - simpl. intros [H | [H | []]]; discriminate.
  - vm_compute. reflexivity.
  - repeat constructor; simpl; intuition discriminate.
  - repeat constructor; simpl; intuition discriminate.
Defined.

(** *** Linearizing again *)

Lemma class_linearize_shape (h : gmap addr objectclass) (klass : addr)
  (k : objectclass) (b : bool) (h' : gmap addr objectclass) :
  h !! klass = Some k ->
  class_linearize h klass = Some (b, h') ->
  exists out, h' = <[klass := set_linearization k out]> h.
Proof.
  intros Hk. rewrite (class_linearize_eq h klass k Hk).
  destruct (parents k) as [|p ps].
  - intro H. injection H as _ <-. eauto.
  - destruct (_init_all _ _) as [lin|]; [|discriminate].
    destruct (_linearize_loop _ _ _) as [[b' out]|]; [|discriminate].
    intro H. injection H as _ <-. eauto.
Qed.

(** X (the old linearization is discarded).  class_linearize resets the
    count of the class's linearization before anything is read, so its
    result does not depend on what the linearization held before; in
    particular linearizing a class a second time changes nothing. *)
Theorem class_linearize_discards_old (h : gmap addr objectclass) (klass : addr)
  (k : objectclass) :
  h !! klass = Some k ->
  (forall old,
      class_linearize (<[klass := set_linearization k old]> h) klass
      = class_linearize h klass) /\
  (forall b h', class_linearize h klass = Some (b, h') ->
                class_linearize h' klass = Some (b, h')).
Proof.
  intro Hk.
  assert (Hold : forall old,
             class_linearize (<[klass := set_linearization k old]> h) klass
             = class_linearize h klass).
  { intro old.
    rewrite (class_linearize_eq _ klass (set_linearization k old))
      by apply lookup_insert_eq.
    rewrite (class_linearize_eq h klass k Hk).
    change (parents (set_linearization k old)) with (parents k).
    rewrite !set_linearization_twice, !insert_insert_eq.
    destruct (parents k) as [|p ps]; [reflexivity|].
    destruct (_init_all _ _) as [lin|]; [|reflexivity].
    destruct (_linearize_loop _ _ _) as [[b out]|]; [|reflexivity].
    rewrite set_linearization_twice, insert_insert_eq. reflexivity. }
  split; [exact Hold|].
  intros b h' Hrun.
  destruct (class_linearize_shape h klass k b h' Hk Hrun) as (out & ->).
  rewrite Hold. exact Hrun.
Qed.

Lemma class_linearize_discards_old_witness :
  (forall old,
      class_linearize
        (<[cD := set_linearization (class_with_parents "D" [cB; cC]) old]> diamond_ready) cD
      = class_linearize diamond_ready cD) /\
  (forall b h', class_linearize diamond_ready cD = Some (b, h') ->
                class_linearize h' cD = Some (b, h')).
Proof.
  apply (class_linearize_discards_old diamond_ready cD (class_with_parents "D" [cB; cC])).
  vm_compute. reflexivity.
Defined.

(** *** Failure *)

Lemma merge_from_finds (lin : list (list value)) (out : list value)
  (l : list value) (v : value) :
  hd_error l = Some v -> _inanytail lin v = false ->
  forall todo, In l todo -> fst (fst (_merge_from todo lin out)) = true.
Proof.
  intros Hhd Htail. induction todo as [|l0 todo IH]; intro Hin; [destruct Hin|].
  simpl. destruct l0 as [|h0 t0].
  - destruct Hin as [<- | Hin]; [discriminate | auto].
  - destruct (_inanytail lin h0) eqn:E0; [|reflexivity].
    destruct Hin as [<- | Hin]; [|auto].
    simpl in Hhd. injection Hhd as <-. congruence.
Qed.

Lemma merge_false_stalled (lin : list (list value)) (out : list value) :
  fst (fst (_merge lin out)) = false -> forall v, ~ good_head lin v.
Proof.
  intros H v (l & Hin & Hhd & Htail).
  unfold _merge in H.
  rewrite (merge_from_finds lin out l v Hhd Htail lin Hin) in H. discriminate.
Qed.

Lemma loop_failure :
  forall fuel lin out out',
    _linearize_loop fuel lin out = Some (false, out') ->
    exists lin', merge_run lin out lin' out' /\ _done lin' = false /\
                 forall v, ~ good_head lin' v.
Proof.
  induction fuel as [|fuel IH]; intros lin out out' H; simpl in H;
    destruct (_done lin) eqn:D; try discriminate.
  destruct (_merge lin out) as [[b lin1] out1] eqn:M. destruct b.
  - destruct (IH _ _ _ H) as (lin' & Hrun & Hd & Hno).
    exists lin'. split; [eapply run_step; eauto | auto].
  - injection H as <-.
    pose proof (merge_false_stalled lin out) as Hno. rewrite M in Hno.
    apply merge_from_false in M as [-> ->].
    exists lin. split; [constructor | auto].
Qed.

(** X (failure means a stall).  class_linearize returns false only when
    the run, started from the parents' linearizations, reaches lists of
    which the first is not empty and none has a good head; the
    linearization it leaves is the class followed by what had been
    merged until then. *)
Theorem failure_is_a_stall (h h' : gmap addr objectclass) (klass : addr)
  (k : objectclass) (lins : list (list value)) :
  h !! klass = Some k ->
  ~ In (MORPHO_OBJECT klass) (parents k) ->
  _init_all h (parents k) = Some lins ->
  class_linearize h klass = Some (false, h') ->
  exists lin out,
    merge_run lins [MORPHO_OBJECT klass] lin out /\
    _done lin = false /\
    (forall v, ~ good_head lin v) /\
    h' = <[klass := set_linearization k out]> h.
Proof.
  intros Hk Hself Hinit Hrun.
  rewrite (class_linearize_eq h klass k Hk) in Hrun.
  destruct (parents k) as [|p ps] eqn:Ep; [discriminate|].
  rewrite init_all_frame in Hrun by exact Hself.
  rewrite Hinit in Hrun.
  destruct (_linearize_loop _ lins _) as [[b out]|] eqn:L; [|discriminate].
  injection Hrun as -> <-.
  destruct (loop_failure _ _ _ _ L) as (lin' & Hmr & Hd & Hno).
  exists lin', out. auto.
Qed.

Lemma failure_is_a_stall_witness :
  exists lin out,
    merge_run [map MORPHO_OBJECT [cB; cC]; map MORPHO_OBJECT [cC; cB]]
              [MORPHO_OBJECT cD] lin out /\
    _done lin = false /\
    (forall v, ~ good_head lin v) /\
    <[cD := set_linearization (class_with_parents "K" [cB; cC]) [MORPHO_OBJECT cD]]>
      ghk_ready
    = <[cD := set_linearization (class_with_parents "K" [cB; cC]) out]> ghk_ready.
Proof.
  apply (failure_is_a_stall ghk_ready _ cD (class_with_parents "K" [cB; cC])).
  - vm_compute. reflexivity.
  - simpl. intros [H | [H | []]]; discriminate.
  - vm_compute. reflexivity.
  - vm_compute. reflexivity.
Defined.

End ClssMore.

(* ===================================================================== *)
(** * Further properties of random.c                                      *)
(* ===================================================================== *)

Module RandomMore.
Import Random RandomFacts.

(** *** splitmix64 *)

Lemma weyl_sequence (seed : Z) (n : nat) :
  Nat.iter (S n) (fun s => u64 (s + GAMMA)) seed
  = u64 (seed + Z.of_nat (S n) * GAMMA).
Proof.
  induction n as [|n IH].
  - cbn [Nat.iter nat_rect]. f_equal; lia.
  - rewrite Nat.iter_succ, IH. unfold u64.
    rewrite Zplus_mod_idemp_l. f_equal; lia.
Qed.

(** X (splitmix64 stream).  After splitmix64_seed(seed), the (k+1)-th
    call of splitmix64_next finds the state at seed + k * GAMMA, moves it
    to seed + (k+1) * GAMMA (modulo 2^64), returns the mixed value of the
    new state, a 64-bit word, and touches neither xoshiro state. *)
Theorem splitmix64_stream (seed : Z) (st : rng) (k : nat) :
  let st_k := Nat.iter k (fun s => snd (splitmix64_next s)) (splitmix64_seed seed st) in
  splitmix64_next st_k
  = (splitmix64_mix (u64 (seed + Z.of_nat (S k) * GAMMA)),
     mkrng (u64 (seed + Z.of_nat (S k) * GAMMA))
           (xoshiro256pp_state st) (xoshiro256p_state st)) /\
  0 <= fst (splitmix64_next st_k) < 2 ^ 64.
Proof.
  intro st_k.
  assert (Hs : splitmix64_state st_k
               = Nat.iter k (fun s => u64 (s + GAMMA)) seed).
  { unfold st_k. rewrite splitmix64_states. reflexivity. }
  assert (Hf : xoshiro256pp_state st_k = xoshiro256pp_state st /\
               xoshiro256p_state st_k = xoshiro256p_state st).
  { unfold st_k. clear. induction k as [|k [IH1 IH2]]; [split; reflexivity|].
    rewrite Nat.iter_succ, splitmix64_next_eq.
    cbn [snd xoshiro256pp_state xoshiro256p_state]. auto. }
  destruct Hf as [Hpp Hp].
  assert (E : splitmix64_next st_k
              = (splitmix64_mix (u64 (seed + Z.of_nat (S k) * GAMMA)),
                 mkrng (u64 (seed + Z.of_nat (S k) * GAMMA))
                       (xoshiro256pp_state st) (xoshiro256p_state st))).
  { rewrite splitmix64_next_eq, Hs, Hpp, Hp.
    change (u64 (Nat.iter k (fun s => u64 (s + GAMMA)) seed + GAMMA))
      with (Nat.iter (S k) (fun s => u64 (s + GAMMA)) seed).
    rewrite weyl_sequence. reflexivity. }
  split; [exact E|].
  rewrite E. cbn [fst]. unfold splitmix64_mix.
  set (z := u64 (Z.lxor _ _ * 0x94D049BB133111EB)).
  assert (Hz : word z) by apply u64_word.
  assert (Hr : word (Z.shiftr z 31)).
  { unfold word in *. rewrite Z.shiftr_div_pow2 by lia. split.
    - apply Z.div_pos; lia.
    - apply Z.div_lt_upper_bound; lia. }
  exact (lxor_word _ _ Hz Hr).
Qed.

(** *** random_initialize *)

Lemma seeding_from (env : world) (st : rng) :
  snd (random_initialize env st)
  = snd (random_initialize (mkworld None (seed_of env) []) (mkrng 0 zero4 zero4)).
Proof.
  assert (G : forall seed (s1 s2 : rng),
             (let st := splitmix64_seed seed s1 in
              let '(a0, st) := splitmix64_next st in
              let '(a1, st) := splitmix64_next st in
              let '(a2, st) := splitmix64_next st in
              let '(a3, st) := splitmix64_next st in
              let st := set_pp st (mk4 a0 a1 a2 a3) in
              let '(b0, st) := splitmix64_next st in
              let '(b1, st) := splitmix64_next st in
              let '(b2, st) := splitmix64_next st in
              let '(b3, st) := splitmix64_next st in
              set_p st (mk4 b0 b1 b2 b3))
             = (let st := splitmix64_seed (u64 seed) s2 in
                let '(a0, st) := splitmix64_next st in
                let '(a1, st) := splitmix64_next st in
                let '(a2, st) := splitmix64_next st in
                let '(a3, st) := splitmix64_next st in
                let st := set_pp st (mk4 a0 a1 a2 a3) in
                let '(b0, st) := splitmix64_next st in
                let '(b1, st) := splitmix64_next st in
                let '(b2, st) := splitmix64_next st in
                let '(b3, st) := splitmix64_next st in
                set_p st (mk4 b0 b1 b2 b3))).
  { intros seed s1 s2. cbv zeta. run_splitmix64.
    assert (E : u64 (u64 seed + GAMMA) = u64 (seed + GAMMA)).
    { unfold u64. apply Zplus_mod_idemp_l. }
    rewrite E. unfold set_p.
    cbn [splitmix64_state xoshiro256pp_state xoshiro256p_state]. reflexivity. }
  unfold random_initialize.
  cbn [urandom clock stderr].
  destruct (urandom env) as [stream|] eqn:Eu.
  - rewrite (read_bytes_firstn sizeof_unsigned_long sizeof_unsigned_long) by lia.
    unfold seed_of. rewrite Eu.
    set (seed := le_word _).
    specialize (G seed st (mkrng 0 zero4 zero4)). cbv zeta in G.
    revert G. run_splitmix64. intro G. cbn [snd]. exact G.
  - unfold seed_of. rewrite Eu.
    set (seed := u64 (clock env)).
    specialize (G seed st (mkrng 0 zero4 zero4)). cbv zeta in G.
    revert G. run_splitmix64. intro G. cbn [snd]. exact G.
Qed.

(** X (the seed decides everything).  The generator state that
    random_initialize leaves depends on nothing but the seed: two runs
    whose seeds agree end in the same splitmix64, xoshiro256++ and
    xoshiro256+ states, whatever the states before, the clock, or the
    bytes of /dev/urandom after the eighth. *)
Theorem random_initialize_by_seed (env1 env2 : world) (st1 st2 : rng) :
  seed_of env1 = seed_of env2 ->
  snd (random_initialize env1 st1) = snd (random_initialize env2 st2).
Proof.
  intro H. rewrite (seeding_from env1 st1), (seeding_from env2 st2), H.
  reflexivity.
Qed.

Lemma random_initialize_by_seed_witness :
  snd (random_initialize world40 st1234)
  = snd (random_initialize
           (mkworld (Some (map Z.of_nat (seq 0 8) ++ [255; 254])) 0 [])
           (mkrng 7 zero4 zero4)).
Proof.
  apply random_initialize_by_seed. vm_compute. reflexivity.
Defined.

(** *** Bits of words *)

Lemma u64_bits (z n : Z) : 0 <= n -> Z.testbit (u64 z) n = (n <? 64) && Z.testbit z n.
Proof.
  intro Hn. unfold u64. destruct (Z.ltb_spec n 64).
  - rewrite Z.mod_pow2_bits_low by lia. reflexivity.
  - rewrite Z.mod_pow2_bits_high by lia. reflexivity.
Qed.

Lemma word_bits (x n : Z) : word x -> 64 <= n -> Z.testbit x n = false.
Proof.
  intros [H0 H1] Hn.
  destruct (Z.eq_dec x 0) as [-> | Hx]; [apply Z.bits_0|].
  apply Z.bits_above_log2; [lia|].
  assert (Z.log2 x < 64) by (apply Z.log2_lt_pow2; lia). lia.
Qed.

Lemma u64_lxor (a b : Z) : u64 (Z.lxor a b) = Z.lxor (u64 a) (u64 b).
Proof.
  apply Z.bits_inj'. intros n Hn.
  rewrite Z.lxor_spec, !u64_bits, Z.lxor_spec by lia.
  destruct (n <? 64); reflexivity.
Qed.

Lemma lxor_swap (a b c e : Z) :
  Z.lxor (Z.lxor a b) (Z.lxor c e) = Z.lxor (Z.lxor a c) (Z.lxor b e).
Proof.
  apply Z.bits_inj'. intros n _. rewrite !Z.lxor_spec.
  destruct (Z.testbit a n), (Z.testbit b n), (Z.testbit c n), (Z.testbit e n);
    reflexivity.
Qed.

Lemma rotl_as_lxor (x : Z) :
  word x ->
  xoshiro256pp_rotl x 45 = Z.lxor (u64 (Z.shiftl x 45)) (Z.shiftr x (64 - 45)).
Proof.
  intro Hx. unfold xoshiro256pp_rotl. apply Z.bits_inj'. intros n Hn.
  rewrite Z.lor_spec, Z.lxor_spec, u64_bits, Z.shiftr_spec, Z.shiftl_spec by lia.
  destruct (Z.ltb_spec n 45).
  - rewrite (Z.testbit_neg_r x (n - 45)) by lia. rewrite andb_false_r. reflexivity.
  - rewrite (word_bits x (n + (64 - 45))) by (auto; lia).
    destruct (_ && _); reflexivity.
Qed.

Lemma rotl_additive (a b : Z) :
  word a -> word b ->
  xoshiro256pp_rotl (Z.lxor a b) 45
  = Z.lxor (xoshiro256pp_rotl a 45) (xoshiro256pp_rotl b 45).
Proof.
  intros Ha Hb.
  rewrite !rotl_as_lxor by auto using lxor_word.
  rewrite Z.shiftl_lxor, u64_lxor, Z.shiftr_lxor. apply lxor_swap.
Qed.

(** *** The transition is linear *)

Lemma xor4_comm (a b : u64x4) : xor4 a b = xor4 b a.
Proof. unfold xor4. f_equal; apply Z.lxor_comm. Qed.

Lemma xor4_assoc (a b c : u64x4) : xor4 (xor4 a b) c = xor4 a (xor4 b c).
Proof. unfold xor4. cbn [w0 w1 w2 w3]. f_equal; apply Z.lxor_assoc. Qed.

Lemma xor4_zero_l (a : u64x4) : xor4 zero4 a = a.
Proof. destruct a. reflexivity. Qed.

Lemma xor4_zero_r (a : u64x4) : xor4 a zero4 = a.
Proof. destruct a. unfold xor4. cbn. rewrite !Z.lxor_0_r. reflexivity. Qed.

Lemma xor4_self (a : u64x4) : xor4 a a = zero4.
Proof. unfold xor4, zero4. rewrite !Z.lxor_nilpotent. reflexivity. Qed.

Lemma xor4_swap (a b c e : u64x4) :
  xor4 (xor4 a b) (xor4 c e) = xor4 (xor4 a c) (xor4 b e).
Proof. unfold xor4. cbn [w0 w1 w2 w3]. f_equal; apply lxor_swap. Qed.

Lemma xor4_words (a b : u64x4) : words a -> words b -> words (xor4 a b).
Proof.
  unfold words, xor4. cbn [w0 w1 w2 w3].
  intros (A0 & A1 & A2 & A3) (B0 & B1 & B2 & B3).
  repeat split; apply lxor_word; assumption.
Qed.

Lemma zero4_words : words zero4.
Proof. unfold words, word. cbn. lia. Qed.

Lemma transition_words (s : u64x4) : words s -> words (transition s).
Proof.
  unfold transition, words. cbn [w0 w1 w2 w3].
  intros (H0 & H1 & H2 & H3).
  repeat split; try apply lxor_word; try apply (rotl_word _);
    repeat apply lxor_word; auto using u64_word.
Qed.

Lemma transition_zero : transition zero4 = zero4.
Proof. reflexivity. Qed.

Lemma transition_additive (a b : u64x4) :
  words a -> words b ->
  transition (xor4 a b) = xor4 (transition a) (transition b).
Proof.
  intros (A0 & A1 & A2 & A3) (B0 & B1 & B2 & B3).
  unfold transition, xor4. cbn [w0 w1 w2 w3].
  f_equal.
  - rewrite (lxor_swap (w3 a)). apply lxor_swap.
  - rewrite (lxor_swap (w2 a)). apply lxor_swap.
  - rewrite Z.shiftl_lxor, u64_lxor, (lxor_swap (w2 a)). apply lxor_swap.
  - rewrite (lxor_swap (w3 a)). apply rotl_additive; apply lxor_word; assumption.
Qed.

(** *** Polynomials in the transition *)

Lemma peval_words (p : poly) : forall s, words s -> words (peval p s).
Proof.
  induction p as [|x p IH]; intros s Hs; cbn [peval]; [apply zero4_words|].
  apply xor4_words; [destruct x; auto using zero4_words|].
  apply IH, transition_words, Hs.
Qed.

Lemma peval_zero (p : poly) : peval p zero4 = zero4.
Proof.
  induction p as [|x p IH]; cbn [peval]; [reflexivity|].
  rewrite transition_zero, IH. destruct x; reflexivity.
Qed.

Lemma peval_additive (p : poly) :
  forall a b, words a -> words b ->
    peval p (xor4 a b) = xor4 (peval p a) (peval p b).
Proof.
  induction p as [|x p IH]; intros a b Ha Hb; cbn [peval]; [reflexivity|].
  rewrite transition_additive by assumption.
  rewrite IH by (apply transition_words; assumption).
  destruct x.
  - apply xor4_swap.
  - rewrite !xor4_zero_l. reflexivity.
Qed.

Lemma peval_padd (a : poly) :
  forall b s, peval (padd a b) s = xor4 (peval a s) (peval b s).
Proof.
  induction a as [|x a IH]; intros b s.
  - cbn [padd peval]. rewrite xor4_zero_l. reflexivity.
  - destruct b as [|y b]; cbn [padd peval].
    + rewrite xor4_zero_r. reflexivity.
    + rewrite IH, xor4_swap. f_equal.
      destruct x, y; cbn [xorb];
        rewrite ?xor4_self, ?xor4_zero_l, ?xor4_zero_r; reflexivity.
Qed.

Lemma peval_transition (p : poly) :
  forall s, words s -> peval p (transition s) = transition (peval p s).
Proof.
  induction p as [|x p IH]; intros s Hs; cbn [peval]; [reflexivity|].
  rewrite transition_additive.
  - rewrite IH by (apply transition_words, Hs).
    destruct x; [reflexivity | rewrite transition_zero; reflexivity].
  - destruct x; auto using zero4_words.
  - apply peval_words, transition_words, Hs.
Qed.

Lemma peval_pmul (a b : poly) :
  forall s, words s -> peval (pmul a b) s = peval a (peval b s).
Proof.
  induction a as [|x a IH]; intros s Hs; cbn [pmul peval]; [reflexivity|].
  rewrite peval_padd. cbn [peval]. rewrite xor4_zero_l.
  rewrite IH by (apply transition_words, Hs).
  rewrite peval_transition by exact Hs.
  destruct x; reflexivity.
Qed.

Lemma peval_pzero (p : poly) : pzero p = true -> forall s, peval p s = zero4.
Proof.
  unfold pzero. induction p as [|x p IH]; intros H s; cbn [peval]; [reflexivity|].
  cbn [forallb] in H. apply andb_true_iff in H as [Hx Hp].
  destruct x; [discriminate|]. rewrite IH by exact Hp. reflexivity.
Qed.

Lemma xor4_cancel (a b : u64x4) : xor4 a b = zero4 -> a = b.
Proof.
  destruct a, b. unfold xor4, zero4. cbn [w0 w1 w2 w3]. intro H.
  injection H as H0 H1 H2 H3.
  apply Z.lxor_eq in H0, H1, H2, H3. congruence.
Qed.

Lemma same_poly_eval (a b : poly) :
  same_poly a b = true -> forall s, peval a s = peval b s.
Proof.
  unfold same_poly. intros H s. apply xor4_cancel.
  rewrite <- peval_padd. apply peval_pzero, H.
Qed.

Lemma peval_app (a b : poly) :
  forall s, peval (a ++ b) s = xor4 (peval a s) (peval b (Nat.iter (length a) transition s)).
Proof.
  induction a as [|x a IH]; intro s.
  - cbn [app peval length Nat.iter nat_rect]. rewrite xor4_zero_l. reflexivity.
  - cbn [app peval length]. rewrite IH, Nat.iter_succ_r, xor4_assoc. reflexivity.
Qed.

(** *** A linear map that vanishes on the unit states vanishes on words *)

Lemma split_top_bit (n w : Z) :
  0 <= n -> 0 <= w < 2 ^ (n + 1) ->
  w = Z.lxor (w mod 2 ^ n) (if Z.testbit w n then 2 ^ n else 0).
Proof.
  intros Hn Hw. apply Z.bits_inj'. intros m Hm.
  rewrite Z.lxor_spec.
  assert (Hhigh : n + 1 <= m -> Z.testbit w m = false).
  { intro H. rewrite <- (Z.mod_small w (2 ^ (n + 1))) by lia.
    apply Z.mod_pow2_bits_high. lia. }
  assert (Hbit : Z.testbit (if Z.testbit w n then 2 ^ n else 0) m
                 = Z.testbit w n && (n =? m)).
  { destruct (Z.testbit w n); [apply Z.pow2_bits_eqb; lia | apply Z.bits_0]. }
  rewrite Hbit.
  destruct (Z.ltb_spec m n).
  - rewrite Z.mod_pow2_bits_low by lia.
    replace (n =? m) with false by (symmetry; apply Z.eqb_neq; lia).
    rewrite andb_false_r, xorb_false_r. reflexivity.
  - rewrite Z.mod_pow2_bits_high by lia.
    destruct (Z.eq_dec n m) as [<- | Hne].
    + rewrite Z.eqb_refl, andb_true_r. reflexivity.
    + replace (n =? m) with false by (symmetry; apply Z.eqb_neq; lia).
      rewrite andb_false_r. apply Hhigh. lia.
Qed.

Section Units.

Variable F : u64x4 -> u64x4.
Hypothesis F_additive :
  forall a b, words a -> words b -> F (xor4 a b) = xor4 (F a) (F b).
Hypothesis F_zero : F zero4 = zero4.

(** One word of the state, the others zero. *)
Variable place : Z -> u64x4.
Hypothesis place_words : forall w, word w -> words (place w).
Hypothesis place_lxor : forall a b, place (Z.lxor a b) = xor4 (place a) (place b).
Hypothesis place_zero : place 0 = zero4.
Hypothesis F_units : forall i : nat, (i < 64)%nat -> F (place (2 ^ Z.of_nat i)) = zero4.

Lemma vanishes_below (n : nat) :
  (n <= 64)%nat -> forall w, 0 <= w < 2 ^ Z.of_nat n -> F (place w) = zero4.
Proof.
  induction n as [|n IH]; intros Hn w Hw.
  - assert (w = 0) by (simpl in Hw; lia). subst w. rewrite place_zero. exact F_zero.
  - rewrite Nat2Z.inj_succ in Hw. unfold Z.succ in Hw.
    rewrite (split_top_bit (Z.of_nat n) w) by lia.
    assert (Hlo : 0 <= w mod 2 ^ Z.of_nat n < 2 ^ Z.of_nat n)
      by (apply Z.mod_pos_bound; lia).
    assert (Hp : 2 ^ Z.of_nat n < 2 ^ 64) by (apply Z.pow_lt_mono_r; lia).
    rewrite place_lxor, F_additive.
    + rewrite (IH ltac:(lia) _ Hlo).
      destruct (Z.testbit w (Z.of_nat n)).
      * rewrite F_units by lia. reflexivity.
      * rewrite place_zero, F_zero. reflexivity.
    + apply place_words. unfold word. lia.
    + apply place_words. unfold word. destruct (Z.testbit w (Z.of_nat n)); lia.
Qed.

Lemma vanishes_on_word (w : Z) : word w -> F (place w) = zero4.
Proof. intro Hw. apply (vanishes_below 64); [lia | exact Hw]. Qed.

End Units.

Lemma transition_fast_eq (s : u64x4) : transition_fast s = transition s.
Proof.
  unfold transition_fast, transition, xoshiro256pp_rotl, u64. cbv zeta.
  change 0xFFFFFFFFFFFFFFFF with (Z.ones 64).
  rewrite !Z.land_ones by lia. reflexivity.
Qed.

Lemma peval_fast_eq (p : poly) : forall s, peval_fast p s = peval p s.
Proof.
  induction p as [|x p IH]; intro s; cbn [peval_fast peval]; [reflexivity|].
  rewrite transition_fast_eq, IH. reflexivity.
Qed.

Lemma units_checked (p : poly) :
  vanishes_on_units p = true ->
  forall j i : nat, (j < 4)%nat -> (i < 64)%nat -> peval p (unit_state j i) = zero4.
Proof.
  unfold vanishes_on_units. intros H j i Hj Hi.
  rewrite forallb_forall in H. specialize (H j).
  rewrite forallb_forall in H.
  assert (Hz : is_zero4 (peval p (unit_state j i)) = true).
  { rewrite <- peval_fast_eq. apply H; apply in_seq; lia. }
  unfold is_zero4 in Hz. destruct (peval p (unit_state j i)) as [a b c e].
  cbn [w0 w1 w2 w3] in Hz.
  apply andb_true_iff in Hz as [Hz H3].
  apply andb_true_iff in Hz as [Hz H2].
  apply andb_true_iff in Hz as [H0 H1].
  apply Z.eqb_eq in H0, H1, H2, H3. subst. reflexivity.
Qed.

Ltac place_fact Hu j :=
  first
    [ assumption
    | intros i Hi; exact (Hu j i ltac:(lia) Hi)
    | intros w Hw; unfold words, word in *; cbn [w0 w1 w2 w3]; lia
    | intros x y; unfold xor4; cbn [w0 w1 w2 w3]; rewrite ?Z.lxor_0_r; reflexivity
    | reflexivity ].

Lemma vanishes_everywhere (p : poly) :
  vanishes_on_units p = true -> forall s, words s -> peval p s = zero4.
Proof.
  intros H [a b c e] (Ha & Hb & Hc & He). cbn [w0 w1 w2 w3] in *.
  pose proof (units_checked p H) as Hu.
  assert (V0 : peval p (mk4 a 0 0 0) = zero4).
  { apply (vanishes_on_word (peval p) (peval_additive p) (peval_zero p)
             (fun w => mk4 w 0 0 0)); place_fact Hu 0%nat. }
  assert (V1 : peval p (mk4 0 b 0 0) = zero4).
  { apply (vanishes_on_word (peval p) (peval_additive p) (peval_zero p)
             (fun w => mk4 0 w 0 0)); place_fact Hu 1%nat. }
  assert (V2 : peval p (mk4 0 0 c 0) = zero4).
  { apply (vanishes_on_word (peval p) (peval_additive p) (peval_zero p)
             (fun w => mk4 0 0 w 0)); place_fact Hu 2%nat. }
  assert (V3 : peval p (mk4 0 0 0 e) = zero4).
  { apply (vanishes_on_word (peval p) (peval_additive p) (peval_zero p)
             (fun w => mk4 0 0 0 w)); place_fact Hu 3%nat. }
  assert (E : mk4 a b c e
              = xor4 (xor4 (mk4 a 0 0 0) (mk4 0 b 0 0))
                     (xor4 (mk4 0 0 c 0) (mk4 0 0 0 e))).
  { unfold xor4. cbn [w0 w1 w2 w3]. rewrite !Z.lxor_0_r. reflexivity. }
  assert (Z0 : word 0) by (unfold word; lia).
  rewrite E, !peval_additive, V0, V1, V2, V3;
    try (unfold words, xor4; cbn [w0 w1 w2 w3]; rewrite ?Z.lxor_0_r; tauto).
Qed.

(** *** Powers of the transition *)

Lemma power_doubles (k : N) (s : u64x4) :
  N.iter (2 ^ (k + 1)) transition s
  = N.iter (2 ^ k) transition (N.iter (2 ^ k) transition s).
Proof.
  rewrite <- N.iter_add. f_equal.
  rewrite N.add_1_r, N.pow_succ_r'. lia.
Qed.

Lemma power_words (m : N) (s : u64x4) : words s -> words (N.iter m transition s).
Proof. intro Hs. apply N.iter_invariant; auto using transition_words. Qed.

Lemma sq_chain_powers (n : nat) :
  vanishes_on_units CHARPOLY = true ->
  forall (k : N) (r r' : poly),
    sq_chain n r = Some r' ->
    (forall s, words s -> N.iter (2 ^ k) transition s = peval r s) ->
    forall s, words s -> N.iter (2 ^ (k + N.of_nat n)) transition s = peval r' s.
Proof.
  intro Hchar. induction n as [|n IH]; intros k r r' Hc Hr s Hs.
  - cbn [sq_chain] in Hc. injection Hc as <-.
    rewrite N.add_0_r. apply Hr, Hs.
  - cbn [sq_chain] in Hc.
    destruct (pdivmod (pmul r r) CHARPOLY) as [q r1].
    destruct (pzero (padd (pmul r r) (padd (pmul q CHARPOLY) r1))) eqn:Hz;
      [|discriminate].
    replace (k + N.of_nat (S n))%N with ((k + 1) + N.of_nat n)%N by lia.
    apply (IH (k + 1)%N r1 r' Hc); [|exact Hs].
    intros t Ht.
    rewrite power_doubles, Hr, Hr by auto using power_words.
    rewrite <- peval_pmul by exact Ht.
    rewrite (same_poly_eval _ _ Hz t), peval_padd, peval_pmul by exact Ht.
    rewrite (vanishes_everywhere CHARPOLY Hchar t Ht), peval_zero, xor4_zero_l.
    reflexivity.
Qed.

Lemma first_power (s : u64x4) : N.iter (2 ^ 0) transition s = peval [false; true] s.
Proof.
  cbn [peval]. rewrite xor4_zero_l, xor4_zero_r. reflexivity.
Qed.

(** *** The loops of xoshiro256pp_jump and xoshiro256pp_longjump *)

Lemma pp_draw_transition (st : rng) :
  pp_draw st = mkrng (splitmix64_state st) (transition (xoshiro256pp_state st))
                     (xoshiro256p_state st).
Proof. reflexivity. Qed.

Lemma pp_draws_nat (n : nat) (st : rng) :
  Nat.iter n pp_draw st
  = mkrng (splitmix64_state st) (Nat.iter n transition (xoshiro256pp_state st))
          (xoshiro256p_state st).
Proof.
  induction n as [|n IH]; [destruct st; reflexivity|].
  rewrite !Nat.iter_succ, IH, pp_draw_transition. reflexivity.
Qed.

Lemma pp_draws_N (m : N) (st : rng) :
  N.iter m pp_draw st
  = mkrng (splitmix64_state st) (N.iter m transition (xoshiro256pp_state st))
          (xoshiro256p_state st).
Proof.
  induction m as [|m IH] using N.peano_ind; [destruct st; reflexivity|].
  rewrite !N.iter_succ, IH, pp_draw_transition. reflexivity.
Qed.

Lemma pp_inner_loop (w : Z) :
  forall (bits : list nat) (acc : u64x4) (st : rng),
    fold_left (pp_jump_body w) bits (acc, st)
    = (xor4 acc (peval (map (bit_set w) bits) (xoshiro256pp_state st)),
       Nat.iter (length bits) pp_draw st).
Proof.
  induction bits as [|b bits IH]; intros acc st.
  - cbn [fold_left map peval length Nat.iter nat_rect]. rewrite xor4_zero_r. reflexivity.
  - cbn [fold_left pp_jump_body map peval length].
    fold (pp_draw st). rewrite IH, Nat.iter_succ_r, pp_draw_transition.
    cbn [xoshiro256pp_state]. f_equal.
    destruct (bit_set w b).
    + apply xor4_assoc.
    + rewrite xor4_zero_l. reflexivity.
Qed.

Lemma pp_outer_loop (bits : list nat) :
  forall (table : list Z) (acc : u64x4) (st : rng),
    fold_left (fun a w => fold_left (pp_jump_body w) bits a) table (acc, st)
    = (xor4 acc (peval (flat_map (fun w => map (bit_set w) bits) table)
                       (xoshiro256pp_state st)),
       Nat.iter (length bits * length table) pp_draw st).
Proof.
  induction table as [|w table IH]; intros acc st.
  - cbn [fold_left flat_map peval length]. rewrite xor4_zero_r, Nat.mul_0_r. reflexivity.
  - cbn [fold_left flat_map length].
    rewrite pp_inner_loop, IH, peval_app, length_map, xor4_assoc.
    f_equal.
    + rewrite pp_draws_nat. reflexivity.
    + rewrite <- Nat.iter_add. f_equal. lia.
Qed.

Lemma pp_jump_loops (table : list Z) (st : rng) :
  let '(acc, st') := jump_loops pp_jump_body table st in
  set_pp st' acc
  = mkrng (splitmix64_state st) (peval (table_poly table) (xoshiro256pp_state st))
          (xoshiro256p_state st).
Proof.
  unfold jump_loops. rewrite pp_outer_loop, xor4_zero_l, pp_draws_nat.
  reflexivity.
Qed.

(** The table of xoshiro256pp_jump is x^(2^128), that of
    xoshiro256pp_longjump x^(2^192), modulo the characteristic polynomial
    of the transition. *)
Lemma charpoly_checked : vanishes_on_units CHARPOLY = true.
Proof. vm_compute. reflexivity. Qed.

Lemma jump_tables_checked :
  (exists r, sq_chain 128 [false; true] = Some r /\
             same_poly r (table_poly JUMP) = true) /\
  (exists r, sq_chain 64 (table_poly JUMP) = Some r /\
             same_poly r (table_poly LONG_JUMP) = true).
Proof.
  split; eexists; (split; [vm_compute; reflexivity | vm_compute; reflexivity]).
Qed.

(** X (xoshiro256++ jumps).  On a state of 64-bit words,
    xoshiro256pp_jump leaves the generator exactly where 2^128 calls of
    next() leave it, and xoshiro256pp_longjump where 2^192 calls leave it;
    neither touches the xoshiro256+ or the splitmix64 state. *)
Theorem xoshiro256pp_jumps_are_draws (st : rng) :
  words (xoshiro256pp_state st) ->
  xoshiro256pp_jump st = N.iter (2 ^ 128) pp_draw st /\
  xoshiro256pp_longjump st = N.iter (2 ^ 192) pp_draw st.
Proof.
  intro Hw.
  destruct jump_tables_checked as [(rj & Hj & Sj) (rl & Hl & Sl)].
  assert (Pj : forall s, words s ->
                 N.iter (2 ^ 128) transition s = peval (table_poly JUMP) s).
  { intros s Hs. rewrite <- (same_poly_eval _ _ Sj).
    exact (sq_chain_powers 128 charpoly_checked 0 _ _ Hj
             (fun t _ => first_power t) s Hs). }
  assert (Pl : forall s, words s ->
                 N.iter (2 ^ 192) transition s = peval (table_poly LONG_JUMP) s).
  { intros s Hs. rewrite <- (same_poly_eval _ _ Sl).
    exact (sq_chain_powers 64 charpoly_checked 128 _ _ Hl Pj s Hs). }
  specialize (Pj _ Hw). specialize (Pl _ Hw).
  unfold xoshiro256pp_jump, xoshiro256pp_longjump.
  pose proof (pp_jump_loops JUMP st) as Lj.
  pose proof (pp_jump_loops LONG_JUMP st) as Ll.
  destruct (jump_loops pp_jump_body JUMP st) as [accj stj].
  destruct (jump_loops pp_jump_body LONG_JUMP st) as [accl stl].
  rewrite Lj, Ll, !pp_draws_N, Pj, Pl. split; reflexivity.
Qed.

Lemma xoshiro256pp_jumps_are_draws_witness :
  xoshiro256pp_jump st1234 = N.iter (2 ^ 128) pp_draw st1234 /\
  xoshiro256pp_longjump st1234 = N.iter (2 ^ 192) pp_draw st1234.
Proof.
  apply xoshiro256pp_jumps_are_draws. unfold words, word. cbn. lia.
Defined.

(** *** The transition on states *)

Lemma p_draw_transition (st : rng) :
  p_draw st = mkrng (splitmix64_state st) (xoshiro256pp_state st)
                    (transition (xoshiro256p_state st)).
Proof. reflexivity. Qed.

Lemma transition_kernel (s : u64x4) : words s -> transition s = zero4 -> s = zero4.
Proof.
  intros Hs Hz.
  apply (p_draw_zero (mkrng 0 zero4 s)); [exact Hs|].
  rewrite p_draw_transition. exact Hz.
Qed.

Lemma transition_injective (a b : u64x4) :
  words a -> words b -> transition a = transition b -> a = b.
Proof.
  intros Ha Hb H. apply xor4_cancel.
  apply transition_kernel; [now apply xor4_words|].
  rewrite transition_additive, H by assumption. apply xor4_self.
Qed.

(** X (draws do not merge states).  On states of 64-bit words the state
    update of next() and of xoshiro256p_next() is one-to-one: two states
    that are equal after a draw were equal before it. *)
Theorem draws_are_injective (st1 st2 : rng) :
  words (xoshiro256pp_state st1) -> words (xoshiro256pp_state st2) ->
  words (xoshiro256p_state st1) -> words (xoshiro256p_state st2) ->
  (xoshiro256pp_state (snd (next st1)) = xoshiro256pp_state (snd (next st2)) ->
   xoshiro256pp_state st1 = xoshiro256pp_state st2) /\
  (xoshiro256p_state (snd (xoshiro256p_next st1))
     = xoshiro256p_state (snd (xoshiro256p_next st2)) ->
   xoshiro256p_state st1 = xoshiro256p_state st2).
Proof.
  intros A1 A2 B1 B2. split; intro H.
  - apply transition_injective; assumption.
  - apply transition_injective; assumption.
Qed.

Lemma draws_are_injective_witness :
  (xoshiro256pp_state (snd (next st1234))
     = xoshiro256pp_state (snd (next (mkrng 5 (mk4 1 2 3 4) zero4))) ->
   xoshiro256pp_state st1234 = xoshiro256pp_state (mkrng 5 (mk4 1 2 3 4) zero4)) /\
  (xoshiro256p_state (snd (xoshiro256p_next st1234))
     = xoshiro256p_state (snd (xoshiro256p_next (mkrng 5 (mk4 1 2 3 4) zero4))) ->
   xoshiro256p_state st1234 = xoshiro256p_state (mkrng 5 (mk4 1 2 3 4) zero4)).
Proof.
  apply draws_are_injective; unfold words, word; cbn; lia.
Defined.

(** X (the all-zero state).  For a xoshiro256+ state of 64-bit words, the
    state after any number of draws is all zero exactly when it was all
    zero before, and from the all-zero state every draw returns 0. *)
Theorem zero_state_is_absorbing (st : rng) (n : N) :
  words (xoshiro256p_state st) ->
  (xoshiro256p_state (N.iter n p_draw st) = zero4 <-> xoshiro256p_state st = zero4) /\
  (xoshiro256p_state st = zero4 ->
   fst (xoshiro256p_next (N.iter n p_draw st)) = 0) /\
  words (xoshiro256p_state (N.iter n p_draw st)).
Proof.
  intro Hw.
  assert (Hstay : xoshiro256p_state st = zero4 ->
                  xoshiro256p_state (N.iter n p_draw st) = zero4).
  { intro Hz. apply (N.iter_invariant n _ p_draw
                       (fun s => xoshiro256p_state s = zero4)); [|exact Hz].
    intros s Hs. rewrite p_draw_transition. cbn [xoshiro256p_state].
    rewrite Hs. reflexivity. }
  split; [split|split].
  - intro Hz.
    destruct (xoshiro256p_state st) as [a b c e] eqn:E.
    destruct (Z.eq_dec a 0) as [-> | Ha];
      [destruct (Z.eq_dec b 0) as [-> | Hb];
       [destruct (Z.eq_dec c 0) as [-> | Hc];
        [destruct (Z.eq_dec e 0) as [-> | He]; [reflexivity|]|]|]|];
      exfalso; apply (p_draws_nonzero n st);
        rewrite ?E; try assumption; intro H; injection H; intros; congruence.
  - exact Hstay.
  - intro Hz. specialize (Hstay Hz).
    unfold xoshiro256p_next. cbn [fst]. rewrite Hstay. reflexivity.
  - apply (N.iter_invariant n _ p_draw (fun s => words (xoshiro256p_state s)));
      [intros s Hs; now apply p_draw_words | exact Hw].
Qed.

Lemma zero_state_is_absorbing_witness :
  (xoshiro256p_state (N.iter 1000 p_draw (mkrng 0 zero4 zero4)) = zero4
   <-> xoshiro256p_state (mkrng 0 zero4 zero4) = zero4) /\
  (xoshiro256p_state (mkrng 0 zero4 zero4) = zero4 ->
   fst (xoshiro256p_next (N.iter 1000 p_draw (mkrng 0 zero4 zero4))) = 0) /\
  words (xoshiro256p_state (N.iter 1000 p_draw (mkrng 0 zero4 zero4))).
Proof.
  apply zero_state_is_absorbing. unfold words, word. cbn. lia.
Defined.

(** *** random_double *)

(** X (random_double stays below 1).  The value random_double returns is
    a multiple of 2^-53 of at most 1 - 2^-53: the upper end 1.0 of the
    documented interval is never returned. *)
Theorem random_double_below_one (st : rng) :
  exists m : Z,
    0 <= m < 2 ^ 53 /\
    (fst (random_double st) == m # 2 ^ 53)%Q /\
    (fst (random_double st) <= 1 - (1 # 2 ^ 53))%Q /\
    (fst (random_double st) < 1)%Q.
Proof.
  pose proof (draw_word st) as Hx. unfold word in Hx.
  unfold random_double.
  destruct (xoshiro256p_next st) as [x st'] eqn:E. cbn [fst] in *.
  exists (Z.shiftr x 11).
  assert (H11 : 0 <= Z.shiftr x 11 < 2 ^ 53).
  { rewrite Z.shiftr_div_pow2 by lia. split.
    - apply Z.div_pos; lia.
    - apply Z.div_lt_upper_bound; lia. }
  set (m := Z.shiftr x 11) in *.
  split; [exact H11|].
  unfold Qeq, Qle, Qlt, Qminus, Qplus, Qopp, Qmult, inject_Z.
  change (2 ^ 53)%positive with 9007199254740992%positive.
  cbn [Qnum Qden].
  repeat split; lia.
Qed.

(** *** A short read of /dev/urandom *)

Lemma le_word_app (a b : list Z) :
  le_word (a ++ b) = le_word a + 256 ^ Z.of_nat (length a) * le_word b.
Proof.
  induction a as [|x a IH]; [cbn [app le_word length]; lia|].
  cbn [app le_word length]. rewrite IH, Nat2Z.inj_succ, Z.pow_succ_r by lia. ring.
Qed.

Lemma le_word_ones (n : nat) : le_word (repeat 255 n) = 256 ^ Z.of_nat n - 1.
Proof.
  induction n as [|n IH]; [reflexivity|].
  cbn [repeat le_word]. rewrite IH, Nat2Z.inj_succ, Z.pow_succ_r by lia. ring.
Qed.

Lemma map_bytes_id (l : list Z) :
  Forall (fun b => 0 <= b < 256) l -> map (fun c => c mod 256) l = l.
Proof.
  induction 1 as [|x l Hx _ IH]; [reflexivity|].
  cbn [map]. rewrite IH, Z.mod_small by lia. reflexivity.
Qed.

Lemma firstn_repeat_le {A : Type} (x : A) (n m : nat) :
  (n <= m)%nat -> firstn n (repeat x m) = repeat x n.
Proof.
  revert m. induction n as [|n IH]; intros m H; [reflexivity|].
  destruct m as [|m]; [lia|]. cbn [repeat firstn]. rewrite IH by lia. reflexivity.
Qed.

(** X (short read).  The result of fgetc is not tested for EOF: when
    /dev/urandom opens but delivers only n < 8 bytes, the missing bytes
    are (char) EOF = 0xFF, so the generator is seeded as the clock value
    whose low n bytes are those read and whose upper 8 - n bytes are 0xFF
    would seed it; no warning is written. *)
Theorem short_urandom_read (env : world) (st : rng) (stream : list Z) :
  urandom env = Some stream ->
  (length stream < 8)%nat ->
  Forall (fun b => 0 <= b < 256) stream ->
  snd (random_initialize env st)
  = snd (random_initialize
           (mkworld None (le_word stream + 2 ^ 64 - 256 ^ Z.of_nat (length stream)) [])
           st) /\
  stderr (fst (random_initialize env st)) = stderr env.
Proof.
  intros Hu Hlen Hb. split.
  - apply random_initialize_by_seed.
    unfold seed_of. rewrite Hu. cbn [urandom clock].
    unfold sizeof_unsigned_long.
    rewrite List.firstn_app, List.firstn_all2 by lia.
    rewrite firstn_repeat_le by lia.
    rewrite map_app, (map_bytes_id stream Hb), map_repeat.
    change (EOF mod 256) with 255.
    rewrite le_word_app, le_word_ones.
    assert (Hs : 0 <= le_word stream < 256 ^ Z.of_nat (length stream)).
    { clear Hu Hlen. induction Hb as [|x l Hx _ IH]; [cbn; lia|].
      cbn [le_word length]. rewrite Nat2Z.inj_succ, Z.pow_succ_r by lia. lia. }
    assert (Hp : 256 ^ Z.of_nat (length stream) * 256 ^ Z.of_nat (8 - length stream)
                 = 2 ^ 64).
    { rewrite <- Z.pow_add_r by lia.
      replace (Z.of_nat (length stream) + Z.of_nat (8 - length stream)) with 8 by lia.
      reflexivity. }
    assert (Hpos : 0 < 256 ^ Z.of_nat (length stream)) by (apply Z.pow_pos_nonneg; lia).
    unfold u64. rewrite Z.mod_small; nia.
  - unfold random_initialize. rewrite Hu.
    destruct (read_bytes sizeof_unsigned_long stream) as [bytes rest].
    run_splitmix64. reflexivity.
Qed.

Lemma short_urandom_read_witness :
  snd (random_initialize (mkworld (Some [1; 2; 3]) 0 []) st1234)
  = snd (random_initialize
           (mkworld None (le_word [1; 2; 3] + 2 ^ 64 - 256 ^ Z.of_nat (length [1; 2; 3])) [])
           st1234) /\
  stderr (fst (random_initialize (mkworld (Some [1; 2; 3]) 0 []) st1234))
  = stderr (mkworld (Some [1; 2; 3]) 0 []).
Proof.
  apply short_urandom_read.
  - reflexivity.
  - simpl. lia.
  - repeat constructor; lia.
Defined.

End RandomMore.

(* ===================================================================== *)
(** * Further properties of parse.h and discretization.c                  *)
(* ===================================================================== *)

Module ParseMore.
Import Parse.

Lemma distinct_nodup (l : list string) : distinct l = true -> List.NoDup l.
Proof.
  induction l as [|x l IH]; intro H; [constructor|].
  cbn [distinct] in H. apply andb_true_iff in H as [Hx Hl].
  constructor; [|apply IH, Hl].
  intro Hin. apply negb_true_iff in Hx.
  assert (E : existsb (String.eqb x) l = true).
  { apply existsb_exists. exists x. split; [exact Hin | apply String.eqb_refl]. }
  congruence.
Qed.

Lemma message_of_in (table : list (string * string)) :
  List.NoDup (map fst table) ->
  forall id msg, In (id, msg) table -> message_of id table = Some msg.
Proof.
  induction table as [|[i m] table IH]; intros Hnd id msg Hin; [destruct Hin|].
  cbn [map fst] in Hnd. inversion Hnd as [|? ? Hi Hnd']; subst.
  cbn [message_of]. destruct Hin as [E | Hin].
  - injection E as -> ->. rewrite String.eqb_refl. reflexivity.
  - destruct (String.eqb_spec i id) as [-> | Hne].
    + exfalso. apply Hi. apply in_map_iff. exists (id, msg). auto.
    + apply IH; assumption.
Qed.

(** X (parser error identifiers).  The 38 error identifiers that parse.h
    defines are pairwise different, and so are their messages: an
    identifier stands for exactly one message and a message for exactly
    one identifier. *)
Theorem parse_errors_distinct :
  length parse_errors = 38%nat /\
  List.NoDup (map fst parse_errors) /\
  List.NoDup (map snd parse_errors) /\
  (forall id msg, In (id, msg) parse_errors -> message_of id parse_errors = Some msg).
Proof.
  assert (Hid : List.NoDup (map fst parse_errors))
    by (apply distinct_nodup; vm_compute; reflexivity).
  split; [reflexivity|]. split; [exact Hid|]. split.
  - apply distinct_nodup. vm_compute. reflexivity.
  - apply message_of_in, Hid.
Qed.

End ParseMore.

Module DiscretizationMore.
Import Discretization DiscretizationFacts.

(** X (no memory).  The constructor tests the object pointer only.  When
    nothing can be allocated it returns nil and leaves the vm as it was;
    when the object can be allocated but its shape cannot, the result of
    discretization_init is not looked at and the copy loop writes through
    the NULL shape pointer. *)
Theorem constructor_without_memory (cv : value -> Z -> bool * Z) (v : vm)
  (args : list value) :
  (room v < 2)%nat ->
  lagrange_constructor cv v args
  = if (room v =? 0)%nat then Some (MORPHO_NIL, v) else None.
Proof.
  intro Hroom.
  unfold lagrange_constructor, object_newdiscretization, discretization_init, allocate.
  destruct v as [objs b rm bd e]. cbn [room brk objects bound err] in *.
  destruct rm as [|[|rm]]; [reflexivity | reflexivity | lia].
Qed.

Lemma constructor_without_memory_witness :
  lagrange_constructor valuetoint_integers (mkvm ∅ 1%positive 1 [] None) [MORPHO_INTEGER 3]
  = if (room (mkvm ∅ 1%positive 1 [] None) =? 0)%nat
    then Some (MORPHO_NIL, mkvm ∅ 1%positive 1 [] None) else None.
Proof.
  apply constructor_without_memory. simpl. lia.
Defined.

(** X (other numbers of arguments).  Only a call with exactly one
    argument looks at its arguments: with two or more the constructor
    behaves as with none and builds the order 1 discretization. *)
Theorem constructor_other_arities (cv : value -> Z -> bool * Z) (v : vm)
  (args : list value) :
  length args <> 1%nat ->
  lagrange_constructor cv v args = lagrange_constructor cv v [].
Proof.
  intro H. unfold lagrange_constructor.
  destruct (Nat.eqb_spec (length args) 1) as [E | _]; [contradiction|].
  reflexivity.
Qed.

Lemma constructor_other_arities_witness :
  lagrange_constructor valuetoint_integers vm0 [MORPHO_INTEGER 5; MORPHO_INTEGER 7]
  = lagrange_constructor valuetoint_integers vm0 [].
Proof.
  apply constructor_other_arities. simpl. lia.
Defined.

(** X (the order is stored as given).  The constructor does not validate
    the order: for every integer n that the conversion delivers, with
    room for the object and its shape, it creates one new object at the
    next free address with order n and shape [1, n - 1], binds that object
    to the vm and leaves all other objects as they were; the order method
    returns n and printfn prints <lagrange n>. *)
Theorem constructor_stores_order (cv : value -> Z -> bool * Z) (v : vm) (n : Z) :
  (2 <= room v)%nat ->
  cv (MORPHO_INTEGER n) 1 = (true, n) ->
  exists v' o,
    lagrange_constructor cv v [MORPHO_INTEGER n] = Some (MORPHO_OBJECT (brk v), v') /\
    objects v' = <[brk v := o]> (objects v) /\
    Discretization_order o = MORPHO_INTEGER n /\
    g (d o) = MESH_GRADE_LINE /\
    shape (d o) = Some [1; int32 (n - 1)] /\
    printfn objectdiscretizationdefn o
      = ("<lagrange " ++ NilZero.string_of_int (Z.to_int n) ++ ">")%string /\
    bound v' = bound v ++ [MORPHO_OBJECT (brk v)].
Proof.
  intros Hroom Hcv.
  unfold lagrange_constructor. cbn [length Nat.eqb MORPHO_GETARG nth].
  rewrite Hcv. cbn [snd].
  unfold object_newdiscretization, discretization_init, allocate.
  destruct v as [objs b rm bd e]. cbn [room brk objects bound err] in *.
  destruct rm as [|[|rm]]; [lia | lia |].
  cbn. eexists. eexists. split; [reflexivity|].
  cbn. repeat split.
Qed.

Lemma constructor_stores_order_witness :
  exists v' o,
    lagrange_constructor valuetoint_integers vm0 [MORPHO_INTEGER (-2)]
      = Some (MORPHO_OBJECT (brk vm0), v') /\
    objects v' = <[brk vm0 := o]> (objects vm0) /\
    Discretization_order o = MORPHO_INTEGER (-2) /\
    g (d o) = MESH_GRADE_LINE /\
    shape (d o) = Some [1; int32 (-2 - 1)] /\
    printfn objectdiscretizationdefn o
      = ("<lagrange " ++ NilZero.string_of_int (Z.to_int (-2)) ++ ">")%string /\
    bound v' = bound vm0 ++ [MORPHO_OBJECT (brk vm0)].
Proof.
  apply (constructor_stores_order valuetoint_integers vm0 (-2)).
  - simpl. lia.
  - reflexivity.
Defined.

End DiscretizationMore.
